(** * Dependency closure and cleanup of [analyze_holopatcher_deps.py]

    A shallow embedding of the script: the import extractor, the closure
    builder ([find_all_dependencies]) and [main] with its cleanup loop, over
    an explicit model of the file system the script reads and mutates. *)

From Stdlib Require Import ZArith Ascii String.
From stdpp Require Import base option list sets gmap strings sorting.

Set Warnings "-register-all,-clear-no-such-hyp".

Local Open Scope string_scope.
Local Open Scope list_scope.
Local Open Scope Z_scope.

(** ** Strings: the pieces of [str] and [fnmatch] the script relies on *)

Module Str.

(** [s.split(".")[0]]: the text before the first dot (all of [s] when it
    has none). *)
Fixpoint first_segment (s : string) : string :=
  match s with
  | EmptyString => EmptyString
  | String c s' =>
      if Ascii.eqb c "."%char then EmptyString else String c (first_segment s')
  end.

(** [s.rfind(c)]: index of the last occurrence, [None] for Python's -1. *)
Fixpoint rfind (c : ascii) (s : string) : option nat :=
  match s with
  | EmptyString => None
  | String a s' =>
      match rfind c s' with
      | Some i => Some (S i)
      | None => if Ascii.eqb a c then Some O else None
      end
  end.

(** [s[i:]] *)
Fixpoint drop (i : nat) (s : string) : string :=
  match i, s with
  | O, _ => s
  | S _, EmptyString => EmptyString
  | S j, String _ s' => drop j s'
  end.

(** [s[:i]] *)
Fixpoint take (i : nat) (s : string) : string :=
  match i, s with
  | O, _ => EmptyString
  | S _, EmptyString => EmptyString
  | S j, String a s' => String a (take j s')
  end.

(** [fnmatch] for the patterns of the script, whose only wildcard is the
    star; matching is case sensitive, as pathlib does on POSIX. *)
Fixpoint fnmatch (pat : string) : string -> bool :=
  match pat with
  | EmptyString => fun s => match s with EmptyString => true | _ => false end
  | String p pat' =>
      if Ascii.eqb p "*"%char then
        fix star (s : string) : bool :=
          fnmatch pat' s
          || match s with EmptyString => false | String _ s' => star s' end
      else
        fun s =>
          match s with
          | EmptyString => false
          | String a s' => Ascii.eqb a p && fnmatch pat' s'
          end
  end.

(** Code-point order of [str], as used when paths are sorted. *)
Definition leb (a b : string) : bool :=
  match String.compare a b with Gt => false | _ => true end.

End Str.

(** ** Paths *)

(** A [Path] is the list of its components; [Path] equality and hashing are
    on the components, so two paths are equal iff the lists are. *)
Abbreviation path := (list string).

(** [p / name] *)
Definition joinpath (p : path) (name : string) : path := p ++ [name].

(** [p.parent]; the parent of the current directory [.] is itself. *)
Definition parent (p : path) : path := removelast p.

(** [p.name] *)
Definition name (p : path) : string := List.last p EmptyString.

(** [p.suffix]: from the last dot of the name, unless that dot is the first
    or the last character. *)
Definition suffix (p : path) : string :=
  let nm := name p in
  match Str.rfind "."%char nm with
  | Some i =>
      if (0 <? i)%nat && (i <? String.length nm - 1)%nat then Str.drop i nm else EmptyString
  | None => EmptyString
  end.

(** [q] lies strictly below directory [d]. *)
Definition below (d q : path) : Prop := ∃ rest, rest ≠ [] ∧ q = d ++ rest.

Global Instance below_dec d q : Decision (below d q).
Proof.
  refine (cast_if (decide (take (length d) q = d ∧ (length d < length q)%nat)));
    unfold below.
  - abstract (destruct a as [Ht Hl]; exists (drop (length d) q); split;
      [ intros Hnil; apply (f_equal length) in Hnil; rewrite length_drop in Hnil;
        simpl in Hnil; lia
      | rewrite <- Ht at 1; symmetry; apply take_drop ]).
  - abstract (intros (rest & Hr & ->); apply n; split;
      [ by rewrite take_app_length
      | rewrite length_app; destruct rest; [done | simpl; lia] ]).
Defined.

(** [sorted(paths)]: paths compare component by component. *)
Fixpoint path_leb (p q : path) : bool :=
  match p, q with
  | [], _ => true
  | _ :: _, [] => false
  | a :: p', b :: q' =>
      if String.eqb a b then path_leb p' q' else Str.leb a b
  end.

Fixpoint insert_sorted (p : path) (l : list path) : list path :=
  match l with
  | [] => [p]
  | q :: l' => if path_leb p q then p :: l else q :: insert_sorted p l'
  end.

Definition sorted (s : gset path) : list path :=
  foldr insert_sorted [] (elements s).

(** ** The syntax trees of [ast] *)


(** What [ast.walk] needs of a tree: import statements, and any other node
    with its children. *)
Inductive node : Type :=
  | Import (names : list string)
  | ImportFrom (module : option string) (level : nat)
  | Other (children : list node).

(** [ast.walk(tree)]: the node and all its descendants.  The script collects
    the names into a set, so the order of the walk is immaterial. *)
Fixpoint walk (n : node) : list node :=
  n :: match n with
       | Other children => flat_map walk children
       | _ => []
       end.

(** ** Exceptions and the file system *)

Inductive exn : Type :=
  | SyntaxError | UnicodeDecodeError
  | FileNotFoundError | IsADirectoryError | NotADirectoryError
  | PermissionError | OSError
  | ZeroDivisionError | ValueError.

Global Instance exn_eq_dec : EqDecision exn.
Proof. solve_decision. Defined.

(** A regular file is represented by what opening, reading and parsing it
    gives (the tree, or the exception raised) and by its size; directories
    have a size too, as [stat] reports one. *)
Inductive entry : Type :=
  | File (parsed : exn + node) (st_size : N)
  | Dir (st_size : N).

Definition entry_size (e : entry) : N :=
  match e with File _ n => n | Dir n => n end.

(** The file system below the current directory: its entries by path, and
    the entries the operating system refuses to remove (locked, or in a
    directory without write permission). The current directory itself is the
    empty path and is not an entry of the map. Entries are regular files and
    directories, there are no symbolic links (module [Links] below has the
    closure builder on trees with links), and an entry is looked up by the
    components of the path as they stand: a path is meant without [..]
    (see [normalized]). *)
Record world : Type := World {
  tree : gmap path entry;
  locked : gset path;
}.

Definition exists_ (w : world) (p : path) : bool :=
  bool_decide (p = [] ∨ is_Some (tree w !! p)).

Definition is_dir (w : world) (p : path) : bool :=
  match p, tree w !! p with
  | [], _ => true
  | _, Some (Dir _) => true
  | _, _ => false
  end.

Definition is_file (w : world) (p : path) : bool :=
  match tree w !! p with
  | Some (File _ _) => true
  | _ => false
  end.

(** [p.stat().st_size] of an existing entry. *)
Definition st_size (w : world) (p : path) : Z :=
  match tree w !! p with
  | Some e => Z.of_N (entry_size e)
  | None => 0
  end.

(** [d.rglob(pat)]: every entry strictly below directory [d] whose name
    matches; nothing when [d] is not a directory. (On a tree with symbolic
    links [rglob] does not descend into a linked directory: [Links.rglob].
    This tree has none.) *)
Definition rglob (w : world) (d : path) (pat : string) : gset path :=
  if is_dir w d
  then filter (λ q, below d q ∧ Str.fnmatch pat (name q) = true) (dom (tree w))
  else ∅.

(** [d.iterdir()] *)
Definition iterdir (w : world) (d : path) : gset path :=
  filter (λ q, parent q = d) (dom (tree w)).

(** Every entry sits in a directory. *)
Definition wf (w : world) : Prop :=
  map_Forall (λ p _, p ≠ [] ∧ is_dir w (parent p) = true) (tree w).

Global Instance wf_dec w : Decision (wf w).
Proof. unfold wf. apply _. Defined.

(** [p.unlink()] *)
Definition unlink (w : world) (p : path) : exn + world :=
  match tree w !! p with
  | None => inl FileNotFoundError
  | Some (Dir _) => inl IsADirectoryError
  | Some (File _ _) =>
      if decide (p ∈ locked w) then inl PermissionError
      else inr (World (delete p (tree w)) (locked w))
  end.

(** [p.rmdir()] *)
Definition rmdir (w : world) (p : path) : exn + world :=
  match tree w !! p with
  | None => inl (if decide (p = []) then OSError else FileNotFoundError)
  | Some (File _ _) => inl NotADirectoryError
  | Some (Dir _) =>
      if decide (iterdir w p = ∅) then
        if decide (p ∈ locked w) then inl PermissionError
        else inr (World (delete p (tree w)) (locked w))
      else inl OSError
  end.

(** [shutil.rmtree(d)]: [d] and everything below it go; the first entry that
    cannot be removed raises. *)
Definition rmtree (w : world) (d : path) : exn + world :=
  match tree w !! d with
  | None => inl FileNotFoundError
  | Some (File _ _) => inl NotADirectoryError
  | Some (Dir _) =>
      let gone : gset path := filter (λ q, q = d ∨ below d q) (dom (tree w)) in
      if decide (gone ∩ locked w = ∅)
      then inr (World (filter (λ kv, kv.1 ∉ gone) (tree w)) (locked w))
      else inl PermissionError
  end.

(** [p.relative_to(base)] *)
Definition relative_to (p base : path) : exn + path :=
  if decide (take (length base) p = base) then inr (drop (length base) p)
  else inl ValueError.

(** ** Standard output *)

(** One constructor per [print] of the script, with the values it formats.
    Sizes are kept as the integers they are computed from; the conversion to
    megabytes and the rounding are a matter of formatting. *)
Inductive msg : Type :=
  | MsgWarning (file_path : path) (e : exn)
  | MsgErrorVendor (vendor_dir : path)
  | MsgErrorEntry (entry_point : path)
  | MsgAnalyzing
  | MsgEntryPoint (entry_point : path)
  | MsgFound (n : nat)
  | MsgTotal (n : nat)
  | MsgRemovable (n : nat)
  | MsgSizeAnalysis
  | MsgTotalSize (total_size : Z)
  | MsgRemovableSize (removable_size total_size : Z)
  | MsgAfterCleanup (bytes : Z)
  | MsgRemovingDirs
  | MsgRemovingDir (dir_name : path) (size : Z)
  | MsgRemovingFiles
  | MsgRemovedCount (removed_count : nat)
  | MsgRemovingArtifacts
  | MsgRemoved (item : path)
  | MsgRemovedDirectory (item : path)
  | MsgFinalSize (final_size : Z)
  | MsgSavings (saved total_size : Z).

(** ** Reference extractor: [find_imports_in_file] *)

(** The names one node adds to [imports]. A from-import whose module is
    [None] or empty adds nothing. *)
Definition node_imports (n : node) : gset string :=
  match n with
  | Import names => list_to_set (Str.first_segment <$> names)
  | ImportFrom (Some module) _ =>
      if String.eqb module EmptyString then ∅ else {[ Str.first_segment module ]}
  | ImportFrom None _ => ∅
  | Other _ => ∅
  end.

Definition tree_imports (t : node) : gset string :=
  ⋃ (node_imports <$> walk t).

(** The set returned, and what is printed. Whatever [open], [read] or
    [ast.parse] raises is caught: one warning, and the set is still empty. *)
Definition find_imports_in_file (w : world) (file_path : path)
  : gset string * list msg :=
  match tree w !! file_path with
  | Some (File (inr t) _) => (tree_imports t, [])
  | Some (File (inl e) _) => (∅, [MsgWarning file_path e])
  | Some (Dir _) => (∅, [MsgWarning file_path IsADirectoryError])
  | None =>
      (∅, [MsgWarning file_path
             (if decide (file_path = []) then IsADirectoryError
              else FileNotFoundError)])
  end.

(** ** Closure builder: [find_all_dependencies] *)

(** The first-party roots, as listed in the loop. *)
Definition RootSet : list string :=
  ["pykotor"; "utility"; "holopatcher"; "loggerplus"].

(** The state of the [while] loop: the three sets, the warnings printed so
    far, and (for the statements about the traversal) the files popped. *)
Record state : Type := State {
  visited : gset path;
  to_process : gset path;
  all_files : gset path;
  printed : list msg;
  popped : list path;
}.

(** The [for imp in imports] loop: for a first-party name whose directory
    exists, every [*.py] entry below it that is not visited is added. *)
Definition enqueue_imports (w : world) (root_dir : path)
    (visited : gset path) (imports : gset string) (to_process : gset path)
  : gset path :=
  set_fold
    (λ imp to_process,
       if decide (imp ∈ RootSet) then
         let module_dir := joinpath root_dir imp in
         if exists_ w module_dir
         then to_process ∪ filter (λ py_file, py_file ∉ visited)
                                  (rglob w module_dir "*.py")
         else to_process
       else to_process)
    to_process imports.

Section Closure.

(** [pop k s] is the element that the [k]-th call of [to_process.pop()]
    removes from [s]; which one is up to the set implementation. *)
Variable pop : nat → gset path → path.

Variable w : world.
Variable root_dir : path.

(** One turn of the [while] loop. *)
Definition iteration (k : nat) (st : state) : state :=
  let current := pop k (to_process st) in
  let to_process1 := to_process st ∖ {[ current ]} in
  let popped1 := popped st ++ [current] in
  if decide (current ∈ visited st) then
    State (visited st) to_process1 (all_files st) (printed st) popped1
  else
    let visited1 := {[ current ]} ∪ visited st in
    if exists_ w current && String.eqb (suffix current) ".py" then
      let '(imports, out) := find_imports_in_file w current in
      State visited1
            (enqueue_imports w root_dir visited1 imports to_process1)
            ({[ current ]} ∪ all_files st)
            (printed st ++ out) popped1
    else
      State visited1 to_process1 (all_files st) (printed st) popped1.

(** The loop, with a bound on the number of turns. *)
Fixpoint loop (fuel : nat) (k : nat) (st : state) : option state :=
  if decide (to_process st = ∅) then Some st
  else match fuel with
       | O => None
       | S fuel' => loop fuel' (S k) (iteration k st)
       end.

(** The whole function; the bound is the number of distinct paths that can
    ever be queued, which [closure_terminates] shows is enough. *)
Definition find_all_dependencies_state (start_file : path) : option state :=
  loop (S (size (dom (tree w)))) 0 (State ∅ {[ start_file ]} ∅ [] []).

Definition find_all_dependencies (start_file : path) : option (gset path) :=
  all_files <$> find_all_dependencies_state start_file.

End Closure.

(** A concrete [pop]: the first element in the order of [elements]. *)
Definition pop_first (k : nat) (s : gset path) : path :=
  default [] (head (elements s)).

(** ** The specification of the closure *)

(** A source file as the loop tests it: the path exists and its suffix is
    [.py]. A directory so named passes the test too; [reachable_file] below
    is the relation on regular files only. *)
Definition source_file (w : world) (p : path) : Prop :=
  exists_ w p = true ∧ suffix p = ".py".

(** Reachability by static imports with whole-directory inclusion: the entry
    is reachable; when a reachable file imports a first-party root, every
    source file below that root's directory is reachable. *)
Inductive reachable (w : world) (root_dir start_file : path) : path → Prop :=
  | reach_entry :
      source_file w start_file → reachable w root_dir start_file start_file
  | reach_import g imp f :
      reachable w root_dir start_file g →
      imp ∈ (find_imports_in_file w g).1 →
      imp ∈ RootSet →
      below (joinpath root_dir imp) f →
      source_file w f →
      reachable w root_dir start_file f.

(** ** Running [main]: state, output and exceptions *)

(** How a piece of the script ends: normally, with a value, the file system
    it leaves and what it printed; or with an exception that nothing caught,
    after printing [out]. What a failing [rmtree] has already removed depends
    on the order in which it meets the entries, so the file system left by
    an exception is not part of the outcome. *)
Inductive outcome (A : Type) : Type :=
  | Returned (a : A) (w : world) (out : list msg)
  | Raised (e : exn) (out : list msg).
Arguments Returned {A} a w out.
Arguments Raised {A} e out.

Definition M (A : Type) : Type := world → outcome A.

Global Instance M_ret : MRet M := λ A a w, Returned a w [].

Global Instance M_bind : MBind M := λ A B f m w,
  match m w with
  | Raised e out => Raised e out
  | Returned a w1 out =>
      match f a w1 with
      | Returned b w2 out' => Returned b w2 (out ++ out')
      | Raised e out' => Raised e (out ++ out')
      end
  end.

Definition print (m : msg) : M unit := λ w, Returned () w [m].
Definition print_all (ms : list msg) : M unit := λ w, Returned () w ms.
Definition raise {A} (e : exn) : M A := λ w, Raised e [].
Definition ask {A} (f : world → A) : M A := λ w, Returned (f w) w [].
Definition modify (f : world → world) : M unit := λ w, Returned () (f w) [].

(** A system call that may raise. *)
Definition syscall (op : world → exn + world) : M unit := λ w,
  match op w with
  | inl e => Raised e []
  | inr w' => Returned () w' []
  end.

(** A pure computation that may raise. *)
Definition check {A} (r : exn + A) : M A := λ w,
  match r with
  | inl e => Raised e []
  | inr a => Returned a w []
  end.

Fixpoint for_each {A} (l : list A) (body : A → M unit) : M unit :=
  match l with
  | [] => mret ()
  | x :: l' => body x ;; for_each l' body
  end.

(** The status the process exits with under [sys.exit(main())]: the value
    returned, or 1 when an exception reaches the top level. *)
Definition exit_status (o : outcome Z) : Z :=
  match o with
  | Returned n _ _ => n
  | Raised _ _ => 1
  end.

(** What a run printed, and the file system it left when it returned. *)
Definition output {A} (o : outcome A) : list msg :=
  match o with
  | Returned _ _ out => out
  | Raised _ out => out
  end.

Definition final_world {A} (o : outcome A) : option world :=
  match o with
  | Returned _ w _ => Some w
  | Raised _ _ => None
  end.

(** ** Constants of [main] *)

Definition vendor_dir : path := ["vendor"; "holopatcher_py"].
Definition entry_point : path := vendor_dir ++ ["holopatcher"; "__main__.py"].

Definition unused_dirs : list path :=
  [ ["utility"; "gui"; "qt"];
    ["utility"; "ui_libraries"];
    ["pykotor"; "resource"; "formats"; "tpc"; "convert"];
    ["pykotor"; "resource"; "formats"; "mdl"] ].

Definition artifact_patterns : list string :=
  ["*.pyi"; "*.pyc"; "*.pyo"; "__pycache__"; "*.out"; "tests"].

(** ** Set reporter *)

(** [sum(f.stat().st_size for f in files if keep(f))] *)
Definition sum_sizes (w : world) (keep : path → bool) (files : gset path) : Z :=
  foldr Z.add 0 (st_size w <$> filter (λ f, keep f = true) (elements files)).

(** Inventory and removable set, as [main] computes them. *)
Definition all_py_files (w : world) : gset path := rglob w vendor_dir "*.py".
Definition removable (w : world) (required_files : gset path) : gset path :=
  all_py_files w ∖ required_files.

(** [a / b] on integers: the quotient is kept as the pair; a zero divisor
    raises. *)
Definition true_div (a b : Z) : exn + Z * Z :=
  if decide (b = 0) then inl ZeroDivisionError else inr (a, b).

(** Lines 81 to 100: the counts and the size analysis. *)
Definition report (required_files : gset path) : M (Z * gset path) :=
  print (MsgFound (size required_files)) ;;
  all_py ← ask all_py_files ;
  print (MsgTotal (size all_py)) ;;
  removable ← ask (λ w, removable w required_files) ;
  print (MsgRemovable (size removable)) ;;
  removable_size ← ask (λ w, sum_sizes w (exists_ w) removable) ;
  total_size ← ask (λ w, sum_sizes w (exists_ w) all_py) ;
  print MsgSizeAnalysis ;;
  print (MsgTotalSize total_size) ;;
  ratio ← check (true_div removable_size total_size) ;
  print (MsgRemovableSize ratio.1 ratio.2) ;;
  print (MsgAfterCleanup (total_size - removable_size)) ;;
  mret (total_size, removable).

(** ** Cleanup executor *)

(** One turn of the loop that removes empty parents: [None] is leaving the
    loop (by its condition, by [break], or by the caught exception). *)
Definition prune_step (w : world) (parent_ : path) : option (world * path) :=
  if bool_decide (parent_ ≠ vendor_dir) && exists_ w parent_ then
    if decide (iterdir w parent_ = ∅) then
      match rmdir w parent_ with
      | inr w' => Some (w', parent parent_)
      | inl _ => None
      end
    else None
  else None.

Fixpoint prune_parents (fuel : nat) (w : world) (parent_ : path) : world :=
  match fuel with
  | O => w
  | S fuel' =>
      match prune_step w parent_ with
      | Some (w', up) => prune_parents fuel' w' up
      | None => w
      end
  end.

(** The loop over [sorted(removable)]; returns [removed_count]. *)
Fixpoint remove_files (files : list path) (removed_count : nat) : M nat :=
  match files with
  | [] => mret removed_count
  | file_path :: rest =>
      check (relative_to file_path vendor_dir) ;;
      syscall (λ w, unlink w file_path) ;;
      modify (λ w, prune_parents (S (length file_path)) w (parent file_path)) ;;
      remove_files rest (S removed_count)
  end.

(** The loop over [unused_dirs]. *)
Definition remove_unused_dirs : M unit :=
  for_each unused_dirs (λ dir_name,
    let dir_path := vendor_dir ++ dir_name in
    present ← ask (λ w, exists_ w dir_path) ;
    if (present : bool) then
      size ← ask (λ w, sum_sizes w (is_file w) (rglob w dir_path "*")) ;
      print (MsgRemovingDir dir_name size) ;;
      syscall (λ w, rmtree w dir_path)
    else mret ()).

(** The sweep of artifacts. The items of one pattern are taken in sorted
    order, a directory before what it contains; an item removed together
    with a directory above it is neither a file nor a directory when its
    turn comes. *)
Definition remove_artifacts : M unit :=
  for_each artifact_patterns (λ pattern,
    items ← ask (λ w, sorted (rglob w vendor_dir pattern)) ;
    for_each items (λ item,
      file ← ask (λ w, is_file w item) ;
      if (file : bool) then
        syscall (λ w, unlink w item) ;;
        rel ← check (relative_to item vendor_dir) ;
        print (MsgRemoved rel)
      else
        dir ← ask (λ w, is_dir w item) ;
        if (dir : bool) then
          syscall (λ w, rmtree w item) ;;
          rel ← check (relative_to item vendor_dir) ;
          print (MsgRemovedDirectory rel)
        else mret ())).

(** ** [main] *)

(** From line 76 on, given the closure and the warnings it printed. *)
Definition main_body (required_files : gset path) (warnings : list msg) : M Z :=
  print MsgAnalyzing ;;
  print (MsgEntryPoint entry_point) ;;
  print_all warnings ;;
  '(total_size, removable) ← report required_files ;
  print MsgRemovingDirs ;;
  remove_unused_dirs ;;
  print MsgRemovingFiles ;;
  removed_count ← remove_files (sorted removable) 0 ;
  print (MsgRemovedCount removed_count) ;;
  print MsgRemovingArtifacts ;;
  remove_artifacts ;;
  final_size ← ask (λ w, sum_sizes w (is_file w) (rglob w vendor_dir "*")) ;
  print (MsgFinalSize final_size) ;;
  ratio ← check (true_div (total_size - final_size) total_size) ;
  print (MsgSavings ratio.1 ratio.2) ;;
  mret 0.

(** [None] only if the closure ran out of turns, which does not happen
    ([main_total]). *)
Definition main (pop : nat → gset path → path) (w : world) : option (outcome Z) :=
  if negb (exists_ w vendor_dir) then
    Some (Returned 1 w [MsgErrorVendor vendor_dir])
  else if negb (exists_ w entry_point) then
    Some (Returned 1 w [MsgErrorEntry entry_point])
  else
    st ← find_all_dependencies_state pop w vendor_dir entry_point ;
    Some (main_body (all_files st) (printed st) w).

(** A path spelled without [..]. [pathlib] keeps such a component, and the
    operating system resolves it; the tree is looked up by components, so it
    stands for the file system on these paths only. *)
Definition normalized (p : path) : Prop := ".." ∉ p.

Global Instance normalized_dec p : Decision (normalized p).
Proof. unfold normalized. apply _. Defined.


(** What holds of the sets at the head of the [while] loop. *)
Record closure_inv (w : world) (root_dir start_file : path) (st : state) : Prop := Inv {
  inv_disjoint : to_process st ## visited st;
  inv_universe : to_process st ∪ visited st ⊆ dom (tree w) ∪ {[ start_file ]};
  inv_all_files : ∀ f, f ∈ all_files st ↔ f ∈ visited st ∧ source_file w f;
  inv_sound : ∀ f, f ∈ to_process st ∪ visited st → source_file w f →
                   reachable w root_dir start_file f;
  inv_start : start_file ∈ to_process st ∪ visited st;
  inv_complete : wf w → ∀ g imp f,
      g ∈ all_files st → imp ∈ (find_imports_in_file w g).1 → imp ∈ RootSet →
      below (joinpath root_dir imp) f → source_file w f →
      f ∈ to_process st ∪ visited st;
  inv_popped_nodup : NoDup (popped st);
  inv_popped : ∀ x, x ∈ popped st ↔ x ∈ visited st;
  inv_printed : ∀ f m, f ∈ all_files st → m ∈ (find_imports_in_file w f).2 →
                       m ∈ printed st;
  inv_printed_only : ∀ m, m ∈ printed st →
      ∃ f, f ∈ all_files st ∧ m ∈ (find_imports_in_file w f).2;
}.
Arguments inv_disjoint {w root_dir start_file} st _.
Arguments inv_universe {w root_dir start_file} st _.
Arguments inv_all_files {w root_dir start_file} st _.
Arguments inv_sound {w root_dir start_file} st _.
Arguments inv_start {w root_dir start_file} st _.
Arguments inv_complete {w root_dir start_file} st _.
Arguments inv_popped_nodup {w root_dir start_file} st _.
Arguments inv_popped {w root_dir start_file} st _.
Arguments inv_printed {w root_dir start_file} st _.
Arguments inv_printed_only {w root_dir start_file} st _.

Definition closure_init (start_file : path) : state :=
  State ∅ {[ start_file ]} ∅ [] [].

(** The same tree with the entry at [p] replaced. *)
Definition with_entry (w : world) (p : path) (e : entry) : world :=
  World (<[ p := e ]> (tree w)) (locked w).

(** [w'] is [w] with some entries removed and nothing else changed. *)
Definition shrinks (w w' : world) : Prop :=
  locked w' = locked w
  ∧ ∀ q, tree w' !! q = None ∨ tree w' !! q = tree w !! q.

(** ** Trees with symbolic links to directories *)

(** The closure builder and the two sets of [main] once more, on a tree in
    which some directories are symbolic links. The tree of [base] holds,
    below the path of a link, the entries that are seen through it; [links]
    gives the directory each link points to. Opening a file and [exists()]
    go through a link like through a directory; [rglob] scans the directory
    it starts from even when that is a link, and does not go down into a
    link that it meets on the way. Everything else is as above. *)
Module Links.

Record linked : Type := Linked {
  base : world;
  links : gmap path path;
}.

(** [d.rglob(pat)] *)
Definition rglob (lw : linked) (d : path) (pat : string) : gset path :=
  if is_dir (base lw) d
  then filter (λ q, below d q ∧ Str.fnmatch pat (name q) = true
                    ∧ set_Forall (λ l, ¬ (below d l ∧ below l q)) (dom (links lw)))
              (dom (tree (base lw)))
  else ∅.


Definition enqueue_imports (lw : linked) (root_dir : path)
    (visited : gset path) (imports : gset string) (to_process : gset path)
  : gset path :=
  set_fold
    (λ imp to_process,
       if decide (imp ∈ RootSet) then
         let module_dir := joinpath root_dir imp in
         if exists_ (base lw) module_dir
         then to_process ∪ filter (λ py_file, py_file ∉ visited)
                                  (rglob lw module_dir "*.py")
         else to_process
       else to_process)
    to_process imports.

Definition iteration (pop : nat → gset path → path) (lw : linked)
    (root_dir : path) (k : nat) (st : state) : state :=
  let current := pop k (to_process st) in
  let to_process1 := to_process st ∖ {[ current ]} in
  let popped1 := popped st ++ [current] in
  if decide (current ∈ visited st) then
    State (visited st) to_process1 (all_files st) (printed st) popped1
  else
    let visited1 := {[ current ]} ∪ visited st in
    if exists_ (base lw) current && String.eqb (suffix current) ".py" then
      let '(imports, out) := find_imports_in_file (base lw) current in
      State visited1
            (enqueue_imports lw root_dir visited1 imports to_process1)
            ({[ current ]} ∪ all_files st)
            (printed st ++ out) popped1
    else
      State visited1 to_process1 (all_files st) (printed st) popped1.

Fixpoint loop (pop : nat → gset path → path) (lw : linked) (root_dir : path)
    (fuel : nat) (k : nat) (st : state) : option state :=
  if decide (to_process st = ∅) then Some st
  else match fuel with
       | O => None
       | S fuel' => loop pop lw root_dir fuel' (S k) (iteration pop lw root_dir k st)
       end.

Definition find_all_dependencies_state (pop : nat → gset path → path)
    (lw : linked) (root_dir start_file : path) : option state :=
  loop pop lw root_dir (S (size (dom (tree (base lw))))) 0
       (State ∅ {[ start_file ]} ∅ [] []).

Definition find_all_dependencies (pop : nat → gset path → path)
    (lw : linked) (root_dir start_file : path) : option (gset path) :=
  all_files <$> find_all_dependencies_state pop lw root_dir start_file.

Definition all_py_files (lw : linked) : gset path := rglob lw vendor_dir "*.py".

Definition removable (lw : linked) (required_files : gset path) : gset path :=
  all_py_files lw ∖ required_files.

(** What the loop keeps true of its sets, with or without links. *)
Definition closure_inv (lw : linked) (start_file : path) (st : state) : Prop :=
  to_process st ## visited st
  ∧ to_process st ∪ visited st ⊆ dom (tree (base lw)) ∪ {[ start_file ]}
  ∧ NoDup (popped st)
  ∧ (∀ x, x ∈ popped st ↔ x ∈ visited st)
  ∧ all_files st ⊆ visited st.

(** No directory below [root_dir] is a symbolic link. *)
Definition unlinked_below (lw : linked) (root_dir : path) : Prop :=
  set_Forall (λ l, ¬ below root_dir l) (dom (links lw)).

Global Instance unlinked_below_dec lw root_dir : Decision (unlinked_below lw root_dir).
Proof. unfold unlinked_below. apply _. Defined.

End Links.

(** ** Example trees *)

Module Examples.

Definition V : path := vendor_dir.
Definition main_py : path := entry_point.
Definition init_py : path := V ++ ["pykotor"; "__init__.py"].
Definition helper_py : path := V ++ ["pykotor"; "helper.py"].
Definition broken_py : path := V ++ ["pykotor"; "broken.py"].
Definition unused_py : path := V ++ ["utility"; "misc"; "unused.py"].
Definition config_py : path := V ++ ["holopatcher"; "config.py"].
Definition tests_dir : path := V ++ ["holopatcher"; "tests"].
Definition test_py : path := V ++ ["holopatcher"; "tests"; "test_cli.py"].

Definition module (stmts : list node) : exn + node := inr (Other stmts).

(** The entry imports root module [pykotor]; [pykotor/__init__.py] imports
    nothing; nothing names [pykotor/helper.py]. *)
Definition scenario : world := World (list_to_map [
    (["vendor"], Dir 4096); (V, Dir 4096);
    (V ++ ["holopatcher"], Dir 4096);
    (main_py, File (module [Import ["pykotor"]]) 120);
    (V ++ ["pykotor"], Dir 4096);
    (init_py, File (module []) 10);
    (helper_py, File (module []) 300)
  ]) ∅.

(** A larger tree: an import cycle between the entry and [helper.py], a
    file that does not parse, an import of a third-party module, and a
    file under [utility] that nothing reaches. *)
Definition demo_tree : gmap path entry := list_to_map [
    (["vendor"], Dir 4096); (V, Dir 4096);
    (V ++ ["holopatcher"], Dir 4096);
    (main_py, File (module [Import ["os.path"; "pykotor.common"];
                            Other [ImportFrom None 1]]) 120);
    (V ++ ["pykotor"], Dir 4096);
    (init_py, File (module []) 10);
    (helper_py, File (module [ImportFrom (Some "holopatcher.config") 0]) 300);
    (broken_py, File (inl SyntaxError) 50);
    (V ++ ["utility"], Dir 4096);
    (V ++ ["utility"; "misc"], Dir 4096);
    (unused_py, File (module [Import ["holopatcher"]]) 700)
  ].

Definition demo : world := World demo_tree ∅.

(** What is left of it once [unused.py] and the directories it leaves
    empty are removed. *)
Definition demo_pruned : world := World (list_to_map [
    (["vendor"], Dir 4096); (V, Dir 4096);
    (V ++ ["holopatcher"], Dir 4096);
    (main_py, File (module [Import ["os.path"; "pykotor.common"];
                            Other [ImportFrom None 1]]) 120);
    (V ++ ["pykotor"], Dir 4096);
    (init_py, File (module []) 10);
    (helper_py, File (module [ImportFrom (Some "holopatcher.config") 0]) 300);
    (broken_py, File (inl SyntaxError) 50)
  ]) ∅.

(** The same tree when the unreached file cannot be removed. *)
Definition demo_locked : world := World demo_tree {[ unused_py ]}.

(** A tree whose only [*.py] file is an empty entry point. *)
Definition empty_entry : world := World (list_to_map [
    (["vendor"], Dir 4096); (V, Dir 4096);
    (V ++ ["holopatcher"], Dir 4096);
    (main_py, File (module []) 0)
  ]) ∅.

(** The entry imports its own package, which has a [tests] directory. *)
Definition with_tests : world := World (list_to_map [
    (["vendor"], Dir 4096); (V, Dir 4096);
    (V ++ ["holopatcher"], Dir 4096);
    (main_py, File (module [ImportFrom (Some "holopatcher.config") 0]) 120);
    (config_py, File (module []) 80);
    (tests_dir, Dir 4096);
    (test_py, File (module []) 200)
  ]) ∅.

(** The scenario tree with a Qt directory under [utility], which nothing
    imports, and the same tree without that directory. *)
Definition widgets_py : path := V ++ ["utility"; "gui"; "qt"; "widgets.py"].

Definition with_qt : world := World (list_to_map [
    (["vendor"], Dir 4096); (V, Dir 4096);
    (V ++ ["holopatcher"], Dir 4096);
    (main_py, File (module [Import ["pykotor"]]) 120);
    (V ++ ["pykotor"], Dir 4096);
    (init_py, File (module []) 10);
    (helper_py, File (module []) 300);
    (V ++ ["utility"], Dir 4096);
    (V ++ ["utility"; "gui"], Dir 4096);
    (V ++ ["utility"; "gui"; "qt"], Dir 4096);
    (widgets_py, File (module []) 900)
  ]) ∅.

Definition with_qt_removed : world := World (list_to_map [
    (["vendor"], Dir 4096); (V, Dir 4096);
    (V ++ ["holopatcher"], Dir 4096);
    (main_py, File (module [Import ["pykotor"]]) 120);
    (V ++ ["pykotor"], Dir 4096);
    (init_py, File (module []) 10);
    (helper_py, File (module []) 300);
    (V ++ ["utility"], Dir 4096);
    (V ++ ["utility"; "gui"], Dir 4096)
  ]) ∅.

(** [with_tests] after the artifact sweep. *)
Definition with_tests_swept : world := World (list_to_map [
    (["vendor"], Dir 4096); (V, Dir 4096);
    (V ++ ["holopatcher"], Dir 4096);
    (main_py, File (module [ImportFrom (Some "holopatcher.config") 0]) 120);
    (config_py, File (module []) 80)
  ]) ∅.



(** The scenario tree with a script that imports third-party modules
    only. *)
Definition cli_py : path := V ++ ["pykotor"; "cli.py"].

Definition with_cli : world := World (list_to_map [
    (["vendor"], Dir 4096); (V, Dir 4096);
    (V ++ ["holopatcher"], Dir 4096);
    (main_py, File (module [Import ["pykotor"]]) 120);
    (V ++ ["pykotor"], Dir 4096);
    (init_py, File (module []) 10);
    (helper_py, File (module []) 300);
    (cli_py, File (module [Import ["os.path"; "sys"];
                           Other [ImportFrom (Some "typing") 0]]) 40)
  ]) ∅.






End Examples.

(** * Properties *)

(** ** Strings and paths *)

Lemma fnmatch_star_unfold pat' a s :
  Str.fnmatch (String "*" pat') (String a s)
  = Str.fnmatch pat' (String a s) || Str.fnmatch (String "*" pat') s.
Proof. reflexivity. Qed.

Lemma drop_py_fnmatch i s :
  Str.drop i s = ".py" → Str.fnmatch "*.py" s = true.
Proof.
  revert s. induction i as [|i IH]; intros s Hs.
  - simpl in Hs. subst s. reflexivity.
  - destruct s as [|a s]; [discriminate|].
    simpl in Hs. rewrite fnmatch_star_unfold, (IH s Hs).
    apply orb_true_r.
Qed.

Lemma suffix_py_fnmatch p : suffix p = ".py" → Str.fnmatch "*.py" (name p) = true.
Proof.
  unfold suffix. destruct (Str.rfind "." (name p)) as [i|]; [|discriminate].
  destruct (_ && _); [|discriminate]. apply drop_py_fnmatch.
Qed.

Lemma below_length d q : below d q → (length d < length q)%nat.
Proof.
  intros (rest & Hr & ->). rewrite length_app.
  destruct rest; [done | simpl; lia].
Qed.

Lemma below_ne d q : below d q → d ≠ q.
Proof. intros H ->. apply below_length in H. lia. Qed.

Lemma below_nonempty d q : below d q → q ≠ [].
Proof. intros H ->. apply below_length in H. simpl in H. lia. Qed.

Lemma below_trans a b c : below a b → below b c → below a c.
Proof.
  intros (r1 & H1 & ->) (r2 & H2 & ->). exists (r1 ++ r2). split.
  - destruct r1; [done | discriminate].
  - by rewrite <- app_assoc.
Qed.


Lemma parent_app_snoc (d : path) x : parent (d ++ [x]) = d.
Proof. apply removelast_last. Qed.

Lemma parent_snoc (q : path) : q ≠ [] → q = parent q ++ [name q].
Proof. intros Hq. unfold parent, name. by apply app_removelast_last. Qed.

Lemma parent_length (q : path) : q ≠ [] → length q = S (length (parent q)).
Proof.
  intros Hq. rewrite (parent_snoc q Hq) at 1. rewrite length_app. simpl. lia.
Qed.

Lemma below_parent_self (q : path) : q ≠ [] → below (parent q) q.
Proof.
  intros Hq. exists [name q]. split; [discriminate | by apply parent_snoc].
Qed.

(** Going one step up from an entry below [d] either reaches [d] or stays
    below it. *)
Lemma below_parent d q : below d q → d = parent q ∨ below d (parent q).
Proof.
  intros (rest & Hr & ->).
  destruct (exists_last Hr) as (rest' & x & ->).
  rewrite app_assoc, parent_app_snoc.
  destruct rest' as [|y rest'].
  - left. by rewrite app_nil_r.
  - right. exists (y :: rest'). split; [discriminate | reflexivity].
Qed.

(** ** The file system *)

Lemma exists_true w p : exists_ w p = true ↔ p = [] ∨ is_Some (tree w !! p).
Proof. unfold exists_. by rewrite bool_decide_eq_true. Qed.

Lemma exists_dom w p : p ≠ [] → exists_ w p = true ↔ p ∈ dom (tree w).
Proof. intros Hp. rewrite exists_true, elem_of_dom. naive_solver. Qed.

Lemma is_dir_exists w p : is_dir w p = true → exists_ w p = true.
Proof.
  unfold is_dir. intros H. apply exists_true.
  destruct p; [by left | right].
  destruct (tree w !! (s :: p)) as [[]|]; naive_solver.
Qed.

Lemma is_dir_lookup w p :
  p ≠ [] → is_dir w p = true ↔ ∃ n, tree w !! p = Some (Dir n).
Proof.
  intros Hp. unfold is_dir. destruct p as [|x p]; [done|].
  destruct (tree w !! (x :: p)) as [[]|]; naive_solver.
Qed.

Lemma is_file_lookup w p :
  is_file w p = true ↔ ∃ t n, tree w !! p = Some (File t n).
Proof. unfold is_file. destruct (tree w !! p) as [[]|]; naive_solver. Qed.

Lemma elem_of_rglob w d pat q :
  q ∈ rglob w d pat ↔
  is_dir w d = true ∧ q ∈ dom (tree w) ∧ below d q ∧ Str.fnmatch pat (name q) = true.
Proof.
  unfold rglob. destruct (is_dir w d).
  - rewrite elem_of_filter. naive_solver.
  - set_solver.
Qed.

Lemma elem_of_iterdir w d q : q ∈ iterdir w d ↔ q ∈ dom (tree w) ∧ parent q = d.
Proof. unfold iterdir. rewrite elem_of_filter. naive_solver. Qed.

Lemma wf_lookup w p e :
  wf w → tree w !! p = Some e → p ≠ [] ∧ is_dir w (parent p) = true.
Proof. intros Hwf Hp. exact (Hwf p e Hp). Qed.

(** In a well-formed tree everything above an entry is a directory. *)
Lemma wf_ancestor w d q :
  wf w → q ∈ dom (tree w) → below d q → is_dir w d = true.
Proof.
  intros Hwf. remember (length q) as n eqn:Hn. revert q Hn.
  induction n as [n IH] using lt_wf_ind. intros q -> Hq Hb.
  apply elem_of_dom in Hq as [e He].
  destruct (wf_lookup w q e Hwf He) as [Hne Hdir].
  destruct (below_parent d q Hb) as [-> | Hb']; [done|].
  apply (IH (length (parent q))) with (q := parent q); [|done| |done].
  - rewrite (parent_length q Hne). lia.
  - apply is_dir_exists in Hdir. apply exists_dom in Hdir; [done|].
    by eapply below_nonempty.
Qed.

(** A source file below [d] is found by [d.rglob("*.py")]. *)
Lemma source_file_rglob w d f :
  wf w → below d f → exists_ w f = true → suffix f = ".py" →
  f ∈ rglob w d "*.py".
Proof.
  intros Hwf Hb Hex Hsuf.
  apply exists_dom in Hex; [|by eapply below_nonempty].
  apply elem_of_rglob. split_and!; [| done | done |].
  - by eapply wf_ancestor.
  - by apply suffix_py_fnmatch.
Qed.

Lemma source_file_test w p :
  exists_ w p && String.eqb (suffix p) ".py" = true ↔ exists_ w p = true ∧ suffix p = ".py".
Proof. rewrite andb_true_iff, String.eqb_eq. done. Qed.

(** ** The reference extractor *)


(** The extractor always returns: with no warning, or with an empty set and
    exactly one warning about the file. *)
Lemma find_imports_cases w p :
  (find_imports_in_file w p).2 = [] ∨
  ∃ e, find_imports_in_file w p = (∅, [MsgWarning p e]).
Proof.
  unfold find_imports_in_file.
  destruct (tree w !! p) as [[[e|t] n|n]|]; simpl; eauto.
Qed.

(** ** The closure builder *)

Lemma elem_of_enqueue_imports w root_dir vis imports tp f :
  f ∈ enqueue_imports w root_dir vis imports tp ↔
  f ∈ tp ∨ ∃ imp, imp ∈ imports ∧ imp ∈ RootSet
                  ∧ exists_ w (joinpath root_dir imp) = true
                  ∧ f ∈ rglob w (joinpath root_dir imp) "*.py" ∧ f ∉ vis.
Proof.
  unfold enqueue_imports.
  apply (set_fold_ind_L (λ acc X, f ∈ acc ↔
    f ∈ tp ∨ ∃ imp, imp ∈ X ∧ imp ∈ RootSet
                    ∧ exists_ w (joinpath root_dir imp) = true
                    ∧ f ∈ rglob w (joinpath root_dir imp) "*.py" ∧ f ∉ vis)).
  - set_solver.
  - intros imp X acc Himp IH.
    assert (Hskip : f ∈ acc ↔
      f ∈ tp ∨ ∃ imp', imp' ∈ X ∧ imp' ∈ RootSet
                    ∧ exists_ w (joinpath root_dir imp') = true
                    ∧ f ∈ rglob w (joinpath root_dir imp') "*.py" ∧ f ∉ vis)
      by exact IH.
    clear IH.
    destruct (decide (imp ∈ RootSet)) as [Hr|Hr];
      [destruct (exists_ w (joinpath root_dir imp)) eqn:Hex|].
    + rewrite elem_of_union, elem_of_filter, Hskip. split.
      * intros [[?|(i & ? & ?)]|[? ?]]; [by left | right | right].
        -- exists i. split; [set_solver | done].
        -- exists imp. split_and!; [set_solver | done..].
      * intros [?|(i & [->%elem_of_singleton|?]%elem_of_union & ? & ? & ? & ?)].
        -- by left; left.
        -- by right.
        -- left; right. by exists i.
    + rewrite Hskip. split.
      * intros [?|(i & ? & ?)]; [by left | right].
        exists i. split; [set_solver | done].
      * intros [?|(i & [->%elem_of_singleton|?]%elem_of_union & ? & ? & ?)].
        -- by left.
        -- congruence.
        -- right. by exists i.
    + rewrite Hskip. split.
      * intros [?|(i & ? & ?)]; [by left | right].
        exists i. split; [set_solver | done].
      * intros [?|(i & [->%elem_of_singleton|?]%elem_of_union & ? & ?)].
        -- by left.
        -- done.
        -- right. by exists i.
Qed.

Section ClosureCorrect.

Variable pop : nat → gset path → path.
Hypothesis pop_ok : ∀ k s, s ≠ ∅ → pop k s ∈ s.

Variable w : world.
Variables root_dir start_file : path.

Local Abbreviation imports_of g := (find_imports_in_file w g).1.
Local Abbreviation warnings_of g := (find_imports_in_file w g).2.

Local Abbreviation inv := (closure_inv w root_dir start_file).
Local Abbreviation init := (closure_init start_file).

Lemma inv_init : inv init.
Proof.
  split; simpl; try set_solver.
  - intros f Hf Hsrc. assert (f = start_file) as -> by set_solver.
    by apply reach_entry.
  - constructor.
Qed.

Lemma iteration_inv k st :
  inv st → to_process st ≠ ∅ →
  inv (iteration pop w root_dir k st)
  ∧ (pop k (to_process st) ∉ visited st)
  ∧ visited (iteration pop w root_dir k st) = {[ pop k (to_process st) ]} ∪ visited st.
Proof.
  intros [Hdis Huni Hall Hsound Hstart Hcompl Hnd Hpop Hpr Hpro] Hne.
  pose proof (pop_ok k _ Hne) as Hcur.
  unfold iteration. set (current := pop k (to_process st)) in *.
  assert (Hfresh : current ∉ visited st).
  { intros Hv. exact (Hdis current Hcur Hv). }
  assert (Hcur_uni : current ∈ dom (tree w) ∪ {[ start_file ]}).
  { apply Huni, elem_of_union. by left. }
  assert (Hkeep : ∀ f, f ∈ to_process st ∪ visited st →
                       f ∈ to_process st ∖ {[current]} ∨ f ∈ {[current]} ∪ visited st).
  { clear -Hcur. intros f Hf. destruct (decide (f = current)); set_solver. }
  assert (Hnd' : NoDup (popped st ++ [current])).
  { apply NoDup_app. split_and!; [done | | apply NoDup_singleton].
    intros x Hx ->%list_elem_of_singleton. by apply Hpop in Hx. }
  assert (Hpop' : ∀ x, x ∈ popped st ++ [current] ↔ x ∈ {[current]} ∪ visited st).
  { intros x. rewrite elem_of_app, list_elem_of_singleton, Hpop.
    clear. set_solver. }
  destruct (decide (current ∈ visited st)) as [?|_]; [done|].
  destruct (exists_ w current && String.eqb (suffix current) ".py") eqn:Hsrc.
  - apply source_file_test in Hsrc.
    destruct (find_imports_in_file w current) as [imports out] eqn:Himp.
    split; [|done]. split; simpl.
    + intros f Hf1 Hf2.
      apply elem_of_enqueue_imports in Hf1 as [Hf1|(imp & _ & _ & _ & _ & Hnv)];
        [|done].
      apply elem_of_union in Hf2 as [Hf2|Hf2].
      * clear -Hf1 Hf2. set_solver.
      * apply elem_of_difference in Hf1 as [Hf1 _]. exact (Hdis f Hf1 Hf2).
    + intros f [Hf|Hf]%elem_of_union.
      * apply elem_of_enqueue_imports in Hf as [Hf|(imp & _ & _ & _ & Hf & _)].
        -- apply Huni, elem_of_union. left.
           by apply elem_of_difference in Hf as [Hf _].
        -- apply elem_of_rglob in Hf as (_ & Hf & _). apply elem_of_union. by left.
      * apply elem_of_union in Hf as [->%elem_of_singleton|Hf]; [done|].
        apply Huni, elem_of_union. by right.
    + intros f. rewrite !elem_of_union, !elem_of_singleton, Hall.
      split; [intros [->|[? ?]]; auto | intros [[->|?] ?]; auto].
    + intros f [Hf|Hf]%elem_of_union Hfsrc.
      * apply elem_of_enqueue_imports in Hf as [Hf|(imp & Hi & Hr & _ & Hf & _)].
        -- apply Hsound; [|done]. apply elem_of_union. left.
           by apply elem_of_difference in Hf as [Hf _].
        -- apply elem_of_rglob in Hf as (_ & _ & Hb & _).
           apply (reach_import w root_dir start_file current imp f); try done.
           ++ apply Hsound; [|done]. apply elem_of_union. by left.
           ++ by rewrite Himp.
      * apply elem_of_union in Hf as [->%elem_of_singleton|Hf].
        -- apply Hsound; [|done]. apply elem_of_union. by left.
        -- apply Hsound; [|done]. apply elem_of_union. by right.
    + destruct (Hkeep _ Hstart) as [Hs|Hs]; apply elem_of_union; [left|by right].
      apply elem_of_enqueue_imports. by left.
    + intros Hwf g imp f Hg Hi Hr Hb Hfsrc.
      destruct (decide (f ∈ {[current]} ∪ visited st)) as [Hv|Hnv];
        [apply elem_of_union; by right|].
      apply elem_of_union; left. apply elem_of_enqueue_imports.
      apply elem_of_union in Hg as [->%elem_of_singleton|Hg].
      * right. exists imp. rewrite Himp in Hi. simpl in Hi.
        destruct Hfsrc as [Hex Hsuf].
        assert (Hin : f ∈ rglob w (joinpath root_dir imp) "*.py")
          by by apply source_file_rglob.
        split_and!; try done.
        apply elem_of_rglob in Hin as [Hd _]. by apply is_dir_exists.
      * left. specialize (Hcompl Hwf g imp f Hg Hi Hr Hb Hfsrc).
        destruct (Hkeep _ Hcompl) as [?|?]; done.
    + done.
    + done.
    + intros f m [->%elem_of_singleton|Hf]%elem_of_union Hm; apply elem_of_app.
      * right. by rewrite Himp in Hm.
      * left. by eapply Hpr.
    + intros m [Hm|Hm]%elem_of_app.
      * destruct (Hpro m Hm) as (f & ? & ?). exists f.
        split; [apply elem_of_union; by right | done].
      * exists current. rewrite Himp.
        split; [apply elem_of_union; left; by apply elem_of_singleton | done].
  - assert (Hns : ¬ source_file w current).
    { intros H%source_file_test. congruence. }
    split; [|done]. split; simpl.
    + intros f Hf1 Hf2.
      apply elem_of_union in Hf2 as [Hf2|Hf2].
      * clear -Hf1 Hf2. set_solver.
      * apply elem_of_difference in Hf1 as [Hf1 _]. exact (Hdis f Hf1 Hf2).
    + intros f [Hf|Hf]%elem_of_union.
      * apply Huni, elem_of_union. left.
        by apply elem_of_difference in Hf as [Hf _].
      * apply elem_of_union in Hf as [->%elem_of_singleton|Hf]; [done|].
        apply Huni, elem_of_union. by right.
    + intros f. rewrite Hall, elem_of_union, elem_of_singleton.
      split; [naive_solver|]. intros [[->|?] ?]; [done | auto].
    + intros f Hf Hfsrc. apply Hsound; [|done].
      apply elem_of_union in Hf as [Hf|Hf].
      * apply elem_of_union. left. by apply elem_of_difference in Hf as [Hf _].
      * apply elem_of_union in Hf as [->%elem_of_singleton|Hf];
          apply elem_of_union; [by left | by right].
    + destruct (Hkeep _ Hstart) as [Hs|Hs]; apply elem_of_union; [by left|by right].
    + intros Hwf g imp f Hg Hi Hr Hb Hfsrc.
      specialize (Hcompl Hwf g imp f Hg Hi Hr Hb Hfsrc).
      destruct (Hkeep _ Hcompl) as [?|?]; apply elem_of_union; [by left|by right].
    + done.
    + done.
    + done.
    + done.
Qed.

Local Abbreviation universe := (dom (tree w) ∪ {[ start_file ]}).

(** With as many turns as there are paths not yet visited, the loop runs
    to the end, and the invariant holds there. *)
Lemma loop_runs fuel k st :
  inv st → (size (universe ∖ visited st) ≤ fuel)%nat →
  ∃ st', loop pop w root_dir fuel k st = Some st' ∧ inv st' ∧ to_process st' = ∅.
Proof.
  revert k st. induction fuel as [|fuel IH]; intros k st Hinv Hsize; simpl.
  - destruct (decide (to_process st = ∅)) as [He|Hne]; [by eauto|].
    exfalso. pose proof (pop_ok k _ Hne) as Hcur.
    destruct Hinv as [Hdis Huni _ _ _ _ _ _ _ _].
    assert (Hin : pop k (to_process st) ∈ universe ∖ visited st) by set_solver.
    assert (universe ∖ visited st ≡ ∅) as Hempty
      by (apply size_empty_iff; lia).
    by apply Hempty in Hin.
  - destruct (decide (to_process st = ∅)) as [He|Hne]; [by eauto|].
    destruct (iteration_inv k st Hinv Hne) as (Hinv' & Hfresh & Hvis).
    apply IH; [done|].
    pose proof (pop_ok k _ Hne) as Hcur.
    destruct Hinv as [Hdis Huni _ _ _ _ _ _ _ _].
    assert (Hlt : (size (universe ∖ visited (iteration pop w root_dir k st))
                   < size (universe ∖ visited st))%nat).
    { apply subset_size. rewrite Hvis. split; [set_solver|].
      intros Hsub. specialize (Hsub (pop k (to_process st))). set_solver. }
    lia.
Qed.

Lemma closure_terminates :
  ∃ st, find_all_dependencies_state pop w root_dir start_file = Some st
        ∧ inv st ∧ to_process st = ∅.
Proof.
  apply loop_runs; [apply inv_init|]. simpl.
  assert (H1 : (size (universe ∖ (∅ : gset path)) ≤ size universe)%nat)
    by (apply subseteq_size; set_solver).
  assert (H2 : (size universe ≤ size (dom (tree w)) + 1)%nat).
  { pose proof (size_union_alt (dom (tree w)) ({[start_file]} : gset path)) as Hu.
    assert (Hs : (size (({[start_file]} : gset path) ∖ dom (tree w)) ≤ 1)%nat).
    { rewrite <- (size_singleton (C:=gset path) start_file).
      apply subseteq_size. set_solver. }
    lia. }
  lia.
Qed.

(** At the end of the loop the result is the reachable set. *)
Lemma inv_final_reachable st :
  wf w → inv st → to_process st = ∅ →
  ∀ f, f ∈ all_files st ↔ reachable w root_dir start_file f.
Proof.
  clear pop pop_ok. intros Hwf Hinv Hend f. split.
  - intros Hf. apply (inv_all_files st Hinv) in Hf as [Hv Hsrc].
    apply (inv_sound st Hinv); [set_solver | done].
  - induction 1 as [Hsrc | g imp f Hg IH Hi Hr Hb Hsrc].
    + apply (inv_all_files st Hinv). split; [|done].
      pose proof (inv_start st Hinv). set_solver.
    + apply (inv_all_files st Hinv). split; [|done].
      pose proof (inv_complete st Hinv Hwf g imp f IH Hi Hr Hb Hsrc). set_solver.
Qed.

End ClosureCorrect.

Lemma pop_first_ok (k : nat) (s : gset path) : s ≠ ∅ → pop_first k s ∈ s.
Proof.
  intros Hne. unfold pop_first.
  destruct (elements s) as [|x l] eqn:He.
  - apply elements_empty_inv in He. exfalso. apply Hne. by unfold_leibniz.
  - simpl. apply elem_of_elements. rewrite He. by left.
Qed.




(** The closure builder returns, and returns the reachable set. *)
Lemma closure_returns_reachable pop w root_dir start_file :
  (∀ k s, s ≠ ∅ → pop k s ∈ s) → wf w →
  ∃ files, find_all_dependencies pop w root_dir start_file = Some files
    ∧ (∀ f, f ∈ files ↔ reachable w root_dir start_file f).
Proof.
  intros Hpop Hwf.
  destruct (closure_terminates pop Hpop w root_dir start_file) as (st & Hst & Hinv & Hend).
  exists (all_files st). unfold find_all_dependencies. rewrite Hst. simpl.
  split; [done|]. by apply inv_final_reachable.
Qed.

(** ** Claims on the closure builder *)










(** ** Trees with symbolic links *)







Lemma Links_no_links_unlinked lw root_dir :
  Links.links lw = ∅ → Links.unlinked_below lw root_dir.
Proof. intros H l. rewrite H, dom_empty_L. by intros ?%elem_of_empty. Qed.



Section LinksTermination.

Variable pop : nat → gset path → path.
Hypothesis pop_ok : ∀ k s, s ≠ ∅ → pop k s ∈ s.

Variable lw : Links.linked.
Variables root_dir start_file : path.

Local Abbreviation universe := (dom (tree (Links.base lw)) ∪ {[ start_file ]}).
Local Abbreviation Links_inv := (Links.closure_inv lw start_file).




End LinksTermination.

(** ** Claims on the sets of [main] *)








(** ** Termination and single processing *)




(** ** Files that do not parse *)







(** ** The cleanup: removals only remove *)

Lemma unlink_spec w p w' :
  unlink w p = inr w' →
  is_file w p = true ∧ (p ∉ locked w)
  ∧ w' = World (delete p (tree w)) (locked w).
Proof.
  unfold unlink, is_file. destruct (tree w !! p) as [[c n|n]|]; try discriminate.
  destruct (decide (p ∈ locked w)); [discriminate|].
  intros [= <-]. done.
Qed.

Lemma rmdir_spec w p w' :
  rmdir w p = inr w' →
  (∃ n, tree w !! p = Some (Dir n)) ∧ iterdir w p = ∅ ∧ (p ∉ locked w)
  ∧ w' = World (delete p (tree w)) (locked w).
Proof.
  unfold rmdir. destruct (tree w !! p) as [[c n|n]|]; try discriminate.
  destruct (decide (iterdir w p = ∅)); [|discriminate].
  destruct (decide (p ∈ locked w)); [discriminate|].
  intros [= <-]. eauto.
Qed.

Lemma prune_step_spec w d w' up :
  prune_step w d = Some (w', up) →
  d ≠ vendor_dir ∧ (∃ n, tree w !! d = Some (Dir n)) ∧ iterdir w d = ∅
  ∧ (d ∉ locked w) ∧ w' = World (delete d (tree w)) (locked w) ∧ up = parent d.
Proof.
  unfold prune_step.
  destruct (bool_decide (d ≠ vendor_dir)) eqn:Hv; simpl; [|discriminate].
  apply bool_decide_eq_true in Hv.
  destruct (exists_ w d); [|discriminate].
  destruct (decide (iterdir w d = ∅)); [|discriminate].
  destruct (rmdir w d) as [err|w1] eqn:Hrm; [discriminate|].
  intros [= <- <-]. apply rmdir_spec in Hrm as (Hd & He & Hl & ->). done.
Qed.



(** The walk leaves every entry either untouched or removed, and removes
    directories only. *)
Lemma prune_parents_lookup fuel w p q :
  tree (prune_parents fuel w p) !! q = tree w !! q
  ∨ (tree (prune_parents fuel w p) !! q = None ∧ ∃ n, tree w !! q = Some (Dir n)).
Proof.
  revert w p. induction fuel as [|fuel IH]; intros w p; simpl; [by left|].
  destruct (prune_step w p) as [[w' up]|] eqn:Hs; [|by left].
  apply prune_step_spec in Hs as (_ & Hd & _ & _ & -> & ->).
  destruct (IH (World (delete p (tree w)) (locked w)) (parent p)) as [H|[H1 [n H2]]];
    simpl in *.
  - rewrite H. destruct (decide (q = p)) as [->|Hne].
    + right. by rewrite lookup_delete_eq.
    + left. by rewrite lookup_delete_ne.
  - right. split; [done|]. exists n.
    destruct (decide (q = p)) as [->|Hne].
    + by rewrite lookup_delete_eq in H2.
    + by rewrite lookup_delete_ne in H2.
Qed.

Lemma prune_parents_locked fuel w p : locked (prune_parents fuel w p) = locked w.
Proof.
  revert w p. induction fuel as [|fuel IH]; intros w p; simpl; [done|].
  destruct (prune_step w p) as [[w' up]|] eqn:Hs; [|done].
  apply prune_step_spec in Hs as (_ & _ & _ & _ & -> & ->). by rewrite IH.
Qed.

(** ** The vendored root *)

(** C10. The walk that removes empty parents never removes the vendored
    root: a turn of the loop at the root leaves the loop, whatever the root
    contains (nothing at all, too), and after the walk the root is the entry
    it was before. *)
Theorem pruning_stops_below_vendor_root fuel w p :
  prune_step w vendor_dir = None
  ∧ tree (prune_parents fuel w p) !! vendor_dir = tree w !! vendor_dir
  ∧ exists_ (prune_parents fuel w p) vendor_dir = exists_ w vendor_dir.
Proof.
  assert (H1 : prune_step w vendor_dir = None).
  { destruct (prune_step w vendor_dir) as [[w' up]|] eqn:H; [|done].
    by apply prune_step_spec in H as (Hne & _). }
  assert (H2 : ∀ fuel w p,
             tree (prune_parents fuel w p) !! vendor_dir = tree w !! vendor_dir).
  { clear. induction fuel as [|fuel IH]; intros w p; simpl; [done|].
    destruct (prune_step w p) as [[w' up]|] eqn:Hs; [|done].
    apply prune_step_spec in Hs as (Hne & _ & _ & _ & -> & ->).
    rewrite IH. simpl. by rewrite lookup_delete_ne. }
  split_and!; [done | apply H2 |].
  unfold exists_. by rewrite H2.
Qed.

(** ** Running the monad *)

Lemma bind_Returned {A B} (m : M A) (f : A → M B) w b w2 out :
  (m ≫= f) w = Returned b w2 out →
  ∃ a w1 o1 o2, m w = Returned a w1 o1 ∧ f a w1 = Returned b w2 o2 ∧ out = o1 ++ o2.
Proof.
  unfold mbind, M_bind. destruct (m w) as [a w1 o1|e o1]; [|discriminate].
  destruct (f a w1) as [b' w2' o2|e o2] eqn:Hf; [|discriminate].
  intros [= <- <- <-]. eauto 10.
Qed.

(** When every continuation can only return [v], so can the sequence. *)
Lemma bind_returns_only {A B} (m : M A) (f : A → M B) (P : B → Prop) :
  (∀ a w b w' out, f a w = Returned b w' out → P b) →
  ∀ w b w' out, (m ≫= f) w = Returned b w' out → P b.
Proof.
  intros Hf w b w' out (a & w1 & o1 & o2 & _ & H & _)%bind_Returned. eauto.
Qed.

Lemma main_body_returns_zero required_files warnings w n w' out :
  main_body required_files warnings w = Returned n w' out → n = 0.
Proof.
  revert w n w' out. unfold main_body.
  do 3 (apply bind_returns_only; intros ?).
  apply bind_returns_only; intros [total_size removable_].
  do 11 (apply bind_returns_only; intros ?).
  intros w n w' out [= <- _ _]. done.
Qed.

(** [main] always gives an outcome. *)
Lemma main_total pop w :
  (∀ k s, s ≠ ∅ → pop k s ∈ s) → ∃ o, main pop w = Some o.
Proof.
  intros Hpop. unfold main.
  destruct (negb (exists_ w vendor_dir)); [eauto|].
  destruct (negb (exists_ w entry_point)); [eauto|].
  destruct (closure_terminates pop Hpop w vendor_dir entry_point) as (st & -> & _).
  simpl. eauto.
Qed.

(** ** Exit status *)

(** C7, as stated, fails: with the vendored root and the entry point in
    place, a removable file that cannot be deleted makes the run end with an
    exception, hence with a status that is not zero. *)
Lemma locked_file_exit_status_nonzero :
  wf Examples.demo_locked
  ∧ exists_ Examples.demo_locked vendor_dir = true
  ∧ exists_ Examples.demo_locked entry_point = true
  ∧ exit_status <$> main pop_first Examples.demo_locked = Some 1
  ∧ exit_status <$> main pop_first Examples.demo_locked ≠ Some 0.
Proof.
  split_and!; apply (bool_decide_unpack _); vm_compute; exact I.
Qed.

(** C7, amended. When the vendored root or the entry point is missing,
    [main] returns 1 and the file system is the one it started from. In all
    other cases a run that comes to its end returns 0, whatever the number
    of removable files; a run that an exception cuts short exits with 1. *)
Theorem main_exit_status pop w :
  (∀ k s, s ≠ ∅ → pop k s ∈ s) →
  ∃ o, main pop w = Some o
    ∧ (exists_ w vendor_dir = false ∨ exists_ w entry_point = false →
       ∃ out, o = Returned 1 w out)
    ∧ (exists_ w vendor_dir = true → exists_ w entry_point = true →
       match o with
       | Returned n _ _ => n = 0 ∧ exit_status o = 0
       | Raised _ _ => exit_status o = 1
       end).
Proof.
  intros Hpop. unfold main.
  destruct (exists_ w vendor_dir) eqn:Hv; simpl.
  - destruct (exists_ w entry_point) eqn:He; simpl.
    + destruct (closure_terminates pop Hpop w vendor_dir entry_point) as (st & -> & _).
      simpl. eexists. split; [done|]. split; [intros [?|?]; discriminate|].
      intros _ _. destruct (main_body _ _ w) as [n w' out|e out] eqn:Hb; [|done].
      apply main_body_returns_zero in Hb as ->. done.
    + eexists. split; [done|]. split; [eauto | discriminate].
  - eexists. split; [done|]. split; [eauto | discriminate].
Qed.

Lemma main_exit_status_witness :
  ∃ o, main pop_first Examples.scenario = Some o
    ∧ (exists_ Examples.scenario vendor_dir = false
       ∨ exists_ Examples.scenario entry_point = false →
       ∃ out, o = Returned 1 Examples.scenario out)
    ∧ (exists_ Examples.scenario vendor_dir = true →
       exists_ Examples.scenario entry_point = true →
       match o with
       | Returned n _ _ => n = 0 ∧ exit_status o = 0
       | Raised _ _ => exit_status o = 1
       end).
Proof. exact (main_exit_status pop_first Examples.scenario pop_first_ok). Defined.

(** On the scenario tree nothing is removable and the run returns 0. *)
Example main_nothing_to_prune :
  removable Examples.scenario
    {[ Examples.main_py; Examples.init_py; Examples.helper_py ]} = ∅
  ∧ exit_status <$> main pop_first Examples.scenario = Some 0
  ∧ (λ o, bool_decide (is_Some (final_world o))) <$> main pop_first Examples.scenario
    = Some true.
Proof.
  split_and!; apply (bool_decide_unpack _); vm_compute; exact I.
Qed.

(** ** The set reporter *)

(** The report raises exactly when the [*.py] entries add up to zero
    bytes. *)
Lemma report_zero_total required_files w :
  sum_sizes w (exists_ w) (all_py_files w) = 0 →
  ∃ out, report required_files w = Raised ZeroDivisionError out.
Proof.
  intros H0. unfold report, mbind, M_bind, print, ask, check, true_div. simpl.
  rewrite H0. simpl. eauto.
Qed.

Lemma report_nonzero_total required_files w :
  sum_sizes w (exists_ w) (all_py_files w) ≠ 0 →
  ∃ out, report required_files w
         = Returned (sum_sizes w (exists_ w) (all_py_files w),
                     removable w required_files) w out.
Proof.
  intros H0. unfold report, mbind, M_bind, print, ask, check, true_div. simpl.
  destruct (decide (sum_sizes w (exists_ w) (all_py_files w) = 0)); [done|].
  simpl. eauto.
Qed.

(** C8 fails on the code: on a tree whose only [*.py] file is an empty
    entry point the total size is 0, the percentage divides by it, and the
    run ends with [ZeroDivisionError] after the line with the total size. *)
Theorem report_divides_by_zero_total :
  wf Examples.empty_entry
  ∧ sum_sizes Examples.empty_entry (exists_ Examples.empty_entry)
      (all_py_files Examples.empty_entry) = 0
  ∧ main pop_first Examples.empty_entry
    = Some (Raised ZeroDivisionError
              [MsgAnalyzing; MsgEntryPoint entry_point; MsgFound 1; MsgTotal 1;
               MsgRemovable 0; MsgSizeAnalysis; MsgTotalSize 0]).
Proof.
  split_and!.
  - apply (bool_decide_unpack _); vm_compute; exact I.
  - vm_compute; reflexivity.
  - vm_compute; reflexivity.
Qed.

(** ** The loop that removes the unused files *)

(** One turn of the loop over [sorted(removable)], spelled out. *)
Lemma remove_files_cons f rest n w :
  remove_files (f :: rest) n w =
  match relative_to f vendor_dir with
  | inl e => Raised e []
  | inr _ =>
      match unlink w f with
      | inl e => Raised e []
      | inr w1 =>
          remove_files rest (S n) (prune_parents (S (length f)) w1 (parent f))
      end
  end.
Proof.
  cbn [remove_files]. unfold mbind, M_bind, check, syscall, modify.
  destruct (relative_to f vendor_dir) as [e|r]; [done|].
  destruct (unlink w f) as [e|w1]; [done|].
  destruct (remove_files rest (S n) _) as [a w2 out|e out]; done.
Qed.

(** The loop prints nothing, whether it returns or raises. *)
Lemma remove_files_silent files n w : output (remove_files files n w) = [].
Proof.
  revert n w. induction files as [|f rest IH]; intros n w; [done|].
  rewrite remove_files_cons.
  destruct (relative_to f vendor_dir); [done|].
  destruct (unlink w f); [done|]. apply IH.
Qed.

Lemma remove_files_app_raise done f rest n w n1 w1 out1 e r :
  remove_files done n w = Returned n1 w1 out1 →
  relative_to f vendor_dir = inr r →
  unlink w1 f = inl e →
  remove_files (done ++ f :: rest) n w = Raised e [].
Proof.
  revert n w. induction done as [|g done IH]; intros n w Hrun Hrel Hun; simpl app.
  - injection Hrun as <- <- <-. by rewrite remove_files_cons, Hrel, Hun.
  - rewrite remove_files_cons in Hrun |- *.
    destruct (relative_to g vendor_dir); [discriminate|].
    destruct (unlink w g); [discriminate|]. by apply IH.
Qed.

(** A failing [rmdir] ends the walk where it stands. *)
Lemma rmdir_failure_ends_walk w d e fuel :
  rmdir w d = inl e → prune_step w d = None ∧ prune_parents fuel w d = w.
Proof.
  intros Hrm.
  assert (Hs : prune_step w d = None).
  { unfold prune_step. rewrite Hrm. by repeat case_match. }
  split; [done|]. destruct fuel; simpl; [done|]. by rewrite Hs.
Qed.

(** C5, as stated, fails: the one removable file of the tree is locked, its
    [unlink] raises, and [main] ends there with that exception, having
    printed nothing about the file or the failure. *)
Lemma locked_file_aborts_run :
  wf Examples.demo_locked
  ∧ find_all_dependencies pop_first Examples.demo_locked vendor_dir entry_point
    = Some {[ Examples.main_py; Examples.init_py; Examples.helper_py;
              Examples.broken_py ]}
  ∧ removable Examples.demo_locked
      {[ Examples.main_py; Examples.init_py; Examples.helper_py; Examples.broken_py ]}
    = {[ Examples.unused_py ]}
  ∧ unlink Examples.demo_locked Examples.unused_py = inl PermissionError
  ∧ main pop_first Examples.demo_locked
    = Some (Raised PermissionError
              [MsgAnalyzing; MsgEntryPoint entry_point;
               MsgWarning Examples.broken_py SyntaxError;
               MsgFound 4; MsgTotal 5; MsgRemovable 1; MsgSizeAnalysis;
               MsgTotalSize 1180; MsgRemovableSize 700 1180; MsgAfterCleanup 480;
               MsgRemovingDirs; MsgRemovingFiles]).
Proof.
  split_and!.
  - apply (bool_decide_unpack _); vm_compute; exact I.
  - apply (bool_decide_unpack _); vm_compute; exact I.
  - apply (bool_decide_unpack _); vm_compute; exact I.
  - vm_compute; reflexivity.
  - vm_compute; reflexivity.
Qed.

(** C5, amended. A removable file whose deletion fails is not skipped: the
    exception leaves the loop, the files after it in the batch are not
    attempted, and the loop has printed nothing. Only a failure to remove an
    empty parent directory is caught, without a message; it ends the walk
    for that file and the batch goes on. *)
Theorem failed_unlink_aborts_batch done f rest n w n1 w1 out1 e r :
  remove_files done n w = Returned n1 w1 out1 →
  relative_to f vendor_dir = inr r →
  unlink w1 f = inl e →
  remove_files (done ++ f :: rest) n w = Raised e []
  ∧ out1 = []
  ∧ (∀ w2 d e2 fuel,
       rmdir w2 d = inl e2 → prune_step w2 d = None ∧ prune_parents fuel w2 d = w2).
Proof.
  intros Hrun Hrel Hun. split_and!.
  - by eapply remove_files_app_raise.
  - pose proof (remove_files_silent done n w) as Hs. by rewrite Hrun in Hs.
  - intros w2 d e2 fuel. apply rmdir_failure_ends_walk.
Qed.

Lemma failed_unlink_aborts_batch_witness :
  remove_files ([] ++ Examples.unused_py :: [Examples.broken_py]) 0 Examples.demo_locked
  = Raised PermissionError []
  ∧ @nil msg = []
  ∧ (∀ w2 d e2 fuel,
       rmdir w2 d = inl e2 → prune_step w2 d = None ∧ prune_parents fuel w2 d = w2).
Proof.
  apply (failed_unlink_aborts_batch [] Examples.unused_py [Examples.broken_py] 0%nat
           Examples.demo_locked 0%nat Examples.demo_locked [] PermissionError
           ["utility"; "misc"; "unused.py"]).
  - reflexivity.
  - vm_compute; reflexivity.
  - vm_compute; reflexivity.
Defined.

(** ** Pruning empty directories *)

Lemma delete_is_dir w p x :
  x ≠ p → is_dir (World (delete p (tree w)) (locked w)) x = is_dir w x.
Proof.
  intros Hne. unfold is_dir. simpl. destruct x as [|a x]; [done|].
  by rewrite lookup_delete_ne.
Qed.

(** Removing an entry that nothing sits in keeps the tree well formed. *)
Lemma delete_wf w p :
  wf w → (∀ q, q ∈ dom (tree w) → parent q = p → False) →
  wf (World (delete p (tree w)) (locked w)).
Proof.
  intros Hwf Hleaf q e Hq. simpl in Hq.
  apply lookup_delete_Some in Hq as [Hne Hq].
  destruct (Hwf q e Hq) as [Hq0 Hdir]. split; [done|].
  rewrite delete_is_dir; [done|].
  intros Hp. apply (Hleaf q); [|done]. apply elem_of_dom. eauto.
Qed.

Lemma unlink_wf w p w' : wf w → unlink w p = inr w' → wf w'.
Proof.
  intros Hwf (Hfile & _ & ->)%unlink_spec. apply delete_wf; [done|].
  intros q [e Hq]%elem_of_dom Hp.
  destruct (Hwf q e Hq) as [Hq0 Hdir]. rewrite Hp in Hdir.
  apply is_file_lookup in Hfile as (t & n & Hfile).
  destruct (Hwf p _ Hfile) as [Hp0 _].
  apply is_dir_lookup in Hdir as [m Hm]; [|done]. congruence.
Qed.

Lemma prune_step_wf w d w' up : wf w → prune_step w d = Some (w', up) → wf w'.
Proof.
  intros Hwf (_ & _ & Hempty & _ & -> & _)%prune_step_spec.
  apply delete_wf; [done|]. intros q Hq Hp.
  assert (q ∈ iterdir w d) as Hin by by apply elem_of_iterdir.
  rewrite Hempty in Hin. by apply not_elem_of_empty in Hin.
Qed.

Lemma prune_parents_wf fuel w p : wf w → wf (prune_parents fuel w p).
Proof.
  revert w p. induction fuel as [|fuel IH]; intros w p Hwf; simpl; [done|].
  destruct (prune_step w p) as [[w' up]|] eqn:Hs; [|done].
  apply IH. by eapply prune_step_wf.
Qed.

(** When the walk does take a turn. *)
Lemma prune_step_ok w p n :
  p ≠ vendor_dir → tree w !! p = Some (Dir n) → iterdir w p = ∅ → p ∉ locked w →
  prune_step w p = Some (World (delete p (tree w)) (locked w), parent p).
Proof.
  intros Hv Hd He Hl. unfold prune_step, rmdir.
  rewrite bool_decide_eq_true_2 by done.
  assert (exists_ w p = true) as -> by (apply exists_true; right; eauto).
  simpl. rewrite Hd.
  destruct (decide (iterdir w p = ∅)); [|done].
  destruct (decide (p ∈ locked w)); done.
Qed.

(** A chain of directories that hold nothing but the next one is removed
    from the bottom up to its top [x]. *)
Lemma prune_removes_chain fuel w p x :
  wf w → below vendor_dir x → x = p ∨ below x p →
  (∃ n, tree w !! p = Some (Dir n)) →
  (∀ q, q ∈ dom (tree w) → below x q → q = p ∨ below q p) →
  (∀ y, y = x ∨ below x y → y ∉ locked w) →
  (length p - length x < fuel)%nat →
  tree (prune_parents fuel w p) !! x = None.
Proof.
  revert w p. induction fuel as [|fuel IH];
    intros w p Hwf Hvx Hxp [n Hd] Hchain Hlock Hfuel; [lia|].
  assert (Hvp : below vendor_dir p).
  { destruct Hxp as [<-|Hxp]; [done | by eapply below_trans]. }
  assert (Hempty : iterdir w p = ∅).
  { apply set_eq. intros q. split; [|by intros ?%not_elem_of_empty].
    intros [Hq Hpq]%elem_of_iterdir. exfalso.
    pose proof Hq as [e He]%elem_of_dom.
    destruct (Hwf q e He) as [Hq0 _].
    pose proof (below_parent_self q Hq0) as Hb. rewrite Hpq in Hb.
    assert (Hxq : below x q).
    { destruct Hxp as [->|Hxp]; [done | by eapply below_trans]. }
    destruct (Hchain q Hq Hxq) as [->|Hqp].
    - by apply below_ne in Hb.
    - apply below_length in Hb, Hqp. lia. }
  simpl. rewrite (prune_step_ok w p n); [|by apply not_eq_sym, below_ne|done..|].
  2:{ apply Hlock. destruct Hxp as [->|?]; auto. }
  set (w' := World (delete p (tree w)) (locked w)).
  destruct Hxp as [->|Hxp].
  - destruct (prune_parents_lookup fuel w' (parent p) p) as [H|[H _]]; [|done].
    rewrite H. simpl. apply lookup_delete_eq.
  - assert (Hp0 : p ≠ []) by by eapply below_nonempty.
    assert (Hlen : length p = S (length (parent p))) by by apply parent_length.
    pose proof (below_length _ _ Hxp) as Hlx.
    apply IH; try done.
    + apply delete_wf; [done|]. intros q Hq Hpq.
      assert (q ∈ iterdir w p) as Hin by by apply elem_of_iterdir.
      rewrite Hempty in Hin. by apply not_elem_of_empty in Hin.
    + by apply below_parent.
    + destruct (Hwf p _ Hd) as [_ Hdir].
      assert (Hpp0 : parent p ≠ []).
      { destruct (below_parent x p Hxp) as [<-|Hb];
          [by eapply below_nonempty | by eapply below_nonempty]. }
      apply is_dir_lookup in Hdir as [m Hm]; [|done].
      exists m. simpl. rewrite lookup_delete_ne; [done|].
      intros Heq. rewrite <- Heq in Hlen. lia.
    + intros q Hq Hxq. simpl in Hq.
      apply elem_of_dom in Hq as [e He].
      apply lookup_delete_Some in He as [Hne He].
      destruct (Hchain q) as [->|Hqp]; [apply elem_of_dom; eauto | done | done |].
      destruct (below_parent q p Hqp) as [->|?]; auto.
    + lia.
Qed.

Lemma prune_parents_is_file fuel w p q :
  is_file (prune_parents fuel w p) q = is_file w q.
Proof.
  unfold is_file.
  destruct (prune_parents_lookup fuel w p q) as [->|[-> [m ->]]]; done.
Qed.

Lemma prune_parents_dir fuel w p x m :
  tree (prune_parents fuel w p) !! x = Some (Dir m) → tree w !! x = Some (Dir m).
Proof.
  destruct (prune_parents_lookup fuel w p x) as [->|[-> _]]; [done | discriminate].
Qed.

(** A directory below the vendored root in which every regular file is in
    the batch, and which has no empty directory in it, is gone when the
    loop returns. *)
Lemma remove_files_empties d files :
  ∀ n w n' w' out,
    wf w → below vendor_dir d →
    (tree w !! d = None ∨ ∃ m, tree w !! d = Some (Dir m)) →
    (∀ q, below d q → is_file w q = true → q ∈ files) →
    (∀ x, x = d ∨ below d x → (∃ m, tree w !! x = Some (Dir m)) →
          ∃ f, f ∈ files ∧ below x f ∧ is_file w f = true) →
    (∀ x, x = d ∨ below d x → x ∉ locked w) →
    remove_files files n w = Returned n' w' out →
    tree w' !! d = None.
Proof.
  induction files as [|f rest IH]; intros n w n' w' out Hwf Hvd Hd Hfiles Hdirs Hlock Hrun.
  - injection Hrun as _ <- _. destruct Hd as [?|Hd]; [done|].
    destruct (Hdirs d (or_introl eq_refl) Hd) as (f & Hf & _). by apply elem_of_nil in Hf.
  - rewrite remove_files_cons in Hrun.
    destruct (relative_to f vendor_dir) as [?|r]; [discriminate|].
    destruct (unlink w f) as [?|w1] eqn:Hun; [discriminate|].
    pose proof (unlink_wf w f w1 Hwf Hun) as Hwf1.
    apply unlink_spec in Hun as (Hff & Hfl & Hw1).
    assert (Hlk1 : ∀ q, q ≠ f → tree w1 !! q = tree w !! q).
    { intros q Hq. rewrite Hw1. simpl. by rewrite lookup_delete_ne. }
    assert (Hf1 : tree w1 !! f = None).
    { rewrite Hw1. simpl. apply lookup_delete_eq. }
    assert (Hfile1 : ∀ q, is_file w1 q = true → is_file w q = true ∧ q ≠ f).
    { intros q Hq. destruct (decide (q = f)) as [->|Hne].
      - unfold is_file in Hq. by rewrite Hf1 in Hq.
      - unfold is_file in *. by rewrite <- (Hlk1 q Hne). }
    assert (Hdir1 : ∀ x m, tree w1 !! x = Some (Dir m) → tree w !! x = Some (Dir m)).
    { intros x m Hx. destruct (decide (x = f)) as [->|Hne]; [congruence|].
      by rewrite <- (Hlk1 x Hne). }
    set (w2 := prune_parents (S (length f)) w1 (parent f)) in *.
    apply (IH (S n) w2 n' w' out); try done.
    + by apply prune_parents_wf.
    + destruct (prune_parents_lookup (S (length f)) w1 (parent f) d) as [Hl|[Hl _]];
        [|by left].
      fold w2 in Hl. rewrite Hl.
      destruct (decide (d = f)) as [->|Hne]; [by left|].
      by rewrite (Hlk1 d Hne).
    + intros q Hdq Hq. unfold w2 in Hq. rewrite prune_parents_is_file in Hq.
      apply Hfile1 in Hq as [Hq Hne].
      specialize (Hfiles q Hdq Hq). apply elem_of_cons in Hfiles as [?|?]; done.
    + intros x Hx [m Hm].
      apply prune_parents_dir in Hm as Hm1. pose proof (Hdir1 x m Hm1) as Hm0.
      destruct (decide (Exists (λ g, below x g ∧ is_file w1 g = true) rest))
        as [Hex|Hnex].
      * apply Exists_exists in Hex as (g & Hg & Hxg & Hgf). exists g.
        split_and!; [done..|]. unfold w2. by rewrite prune_parents_is_file.
      * exfalso.
        assert (Hnone : ∀ g, g ∈ rest → below x g → is_file w1 g = true → False).
        { intros g Hg Hxg Hgf. apply Hnex, Exists_exists. eauto. }
        assert (Hdx : ∀ q, below x q → below d q).
        { intros q Hq. destruct Hx as [->|Hx]; [done | by eapply below_trans]. }
        assert (Honly : ∀ g, g ∈ f :: rest → below x g → is_file w g = true → g = f).
        { intros g Hg Hxg Hgf. destruct (decide (g = f)) as [|Hne]; [done|].
          exfalso. apply elem_of_cons in Hg as [?|Hg]; [done|].
          apply (Hnone g Hg Hxg). unfold is_file in *. by rewrite (Hlk1 g Hne). }
        assert (Hxf : below x f).
        { destruct (Hdirs x Hx (ex_intro _ m Hm0)) as (g & Hg & Hxg & Hgf).
          by rewrite <- (Honly g Hg Hxg Hgf). }
        assert (Hf0 : f ≠ []) by by eapply below_nonempty.
        assert (Hvx : below vendor_dir x).
        { destruct Hx as [->|Hx]; [done | by eapply below_trans]. }
        assert (Hchain : ∀ q, q ∈ dom (tree w1) → below x q → below q f).
        { intros q [e He]%elem_of_dom Hxq.
          assert (Hqf : q ≠ f) by congruence.
          destruct e as [c k|k].
          - exfalso.
            assert (Hq1 : is_file w1 q = true) by (unfold is_file; by rewrite He).
            destruct (Hfile1 q Hq1) as [Hq0 _].
            pose proof (Hfiles q (Hdx q Hxq) Hq0) as Hin.
            apply elem_of_cons in Hin as [?|Hin]; [done|]. by apply (Hnone q).
          - pose proof (Hdir1 q k He) as Hq0.
            destruct (Hdirs q (or_intror (Hdx q Hxq)) (ex_intro _ k Hq0))
              as (g & Hg & Hqg & Hgf).
            rewrite <- (Honly g Hg (below_trans _ _ _ Hxq Hqg) Hgf). done. }
        assert (Hgone : tree w2 !! x = None).
        { unfold w2. apply prune_removes_chain; try done.
          - destruct (below_parent x f Hxf); auto.
          - apply is_file_lookup in Hff as (t & k & Hfk).
            destruct (Hwf f _ Hfk) as [_ Hdir].
            assert (Hp0 : parent f ≠ []).
            { destruct (below_parent x f Hxf) as [<-|Hb]; by eapply below_nonempty. }
            apply is_dir_lookup in Hdir as [k' Hk']; [|done].
            exists k'. rewrite Hlk1; [done|].
            intros Heq. pose proof (parent_length f Hf0) as Hlen.
            rewrite Heq in Hlen. lia.
          - intros q Hq Hxq. pose proof (Hchain q Hq Hxq) as Hqf.
            destruct (below_parent q f Hqf) as [->|?]; auto.
          - intros y Hy. rewrite Hw1. simpl. apply Hlock.
            destruct Hy as [->|Hy]; [done|]. right. by apply Hdx.
          - pose proof (parent_length f Hf0). lia. }
        congruence.
    + intros x Hx. unfold w2. rewrite prune_parents_locked, Hw1. simpl. by apply Hlock.
Qed.

(** A regular file that is not in the batch, and every directory above it,
    are still there when the loop returns. *)
Lemma remove_files_keeps files :
  ∀ n w n' w' out q,
    wf w → is_file w q = true → q ∉ files →
    remove_files files n w = Returned n' w' out →
    wf w' ∧ tree w' !! q = tree w !! q.
Proof.
  induction files as [|f rest IH]; intros n w n' w' out q Hwf Hq Hnin Hrun.
  - by injection Hrun as _ <- _.
  - rewrite remove_files_cons in Hrun.
    destruct (relative_to f vendor_dir) as [?|r]; [discriminate|].
    destruct (unlink w f) as [?|w1] eqn:Hun; [discriminate|].
    pose proof (unlink_wf w f w1 Hwf Hun) as Hwf1.
    apply unlink_spec in Hun as (_ & _ & Hw1).
    apply not_elem_of_cons in Hnin as [Hne Hnin].
    set (w2 := prune_parents (S (length f)) w1 (parent f)) in *.
    assert (Hq2 : tree w2 !! q = tree w !! q).
    { unfold w2.
      destruct (prune_parents_lookup (S (length f)) w1 (parent f) q) as [H|[_ [m H]]].
      - rewrite H, Hw1. simpl. by apply lookup_delete_ne.
      - rewrite Hw1 in H. simpl in H. rewrite lookup_delete_ne in H by done.
        apply is_file_lookup in Hq as (t & k & Hq). congruence. }
    destruct (IH (S n) w2 n' w' out q) as [Hwf' Hq']; try done.
    + by apply prune_parents_wf.
    + unfold is_file in *. by rewrite Hq2.
    + split; [done | congruence].
Qed.

Lemma elem_of_insert_sorted p l q : q ∈ insert_sorted p l ↔ q = p ∨ q ∈ l.
Proof.
  induction l as [|x l IH]; simpl.
  - rewrite list_elem_of_singleton, elem_of_nil. tauto.
  - destruct (path_leb p x).
    + by rewrite elem_of_cons.
    + rewrite !elem_of_cons, IH. tauto.
Qed.

Lemma elem_of_sorted (s : gset path) q : q ∈ sorted s ↔ q ∈ s.
Proof.
  unfold sorted. rewrite <- elem_of_elements.
  induction (elements s) as [|x l IH]; simpl; [done|].
  rewrite elem_of_insert_sorted, elem_of_cons, IH. done.
Qed.

(** C9, as stated, fails: the entry imports its own package, so the files
    of [holopatcher/tests] are required, yet after the run, which returns 0,
    that directory no longer exists: the artifact sweep removes every
    [tests] directory. *)
Lemma tests_directory_with_required_file_removed :
  wf Examples.with_tests
  ∧ find_all_dependencies pop_first Examples.with_tests vendor_dir entry_point
    = Some {[ Examples.main_py; Examples.config_py; Examples.test_py ]}
  ∧ is_dir Examples.with_tests Examples.tests_dir = true
  ∧ is_file Examples.with_tests Examples.test_py = true
  ∧ below Examples.tests_dir Examples.test_py
  ∧ exit_status <$> main pop_first Examples.with_tests = Some 0
  ∧ (λ o, (λ w', exists_ w' Examples.tests_dir) <$> final_world o)
      <$> main pop_first Examples.with_tests
    = Some (Some false).
Proof.
  split_and!; apply (bool_decide_unpack _); vm_compute; exact I.
Qed.

(** C9, amended. The walk that follows the removal of an unused file removes
    a directory only when it is empty at that moment, and goes on with its
    parent. When the loop over the removable files returns: a directory
    below the vendored root whose regular files were all in the batch, with
    no empty directory and nothing locked in it, no longer exists; a
    directory above a regular file that is not in the batch still exists,
    and so does the file. A required file is never in the batch. *)
Theorem pruning_after_removal files n w n' w' out :
  wf w → remove_files files n w = Returned n' w' out →
  (∀ w0 d0 w1 up, prune_step w0 d0 = Some (w1, up) →
     is_dir w0 d0 = true ∧ iterdir w0 d0 = ∅
     ∧ tree w1 = delete d0 (tree w0) ∧ up = parent d0)
  ∧ (∀ d, below vendor_dir d → is_dir w d = true →
       (∀ q, below d q → is_file w q = true → q ∈ files) →
       (∀ x, x = d ∨ below d x → is_dir w x = true →
             ∃ f, below x f ∧ is_file w f = true) →
       (∀ x, x = d ∨ below d x → x ∉ locked w) →
       exists_ w' d = false)
  ∧ (∀ x q, below x q → is_file w q = true → q ∉ files →
       exists_ w' x = true ∧ is_file w' q = true)
  ∧ (∀ required_files q, q ∈ required_files → q ∉ sorted (removable w required_files)).
Proof.
  intros Hwf Hrun. split_and!.
  - intros w0 d0 w1 up (Hv & [m Hd] & He & _ & -> & ->)%prune_step_spec.
    split_and!; try done. unfold is_dir. destruct d0; [done|]. by rewrite Hd.
  - intros d Hvd Hd Hfiles Hdirs Hlock.
    assert (Hd0 : d ≠ []) by by eapply below_nonempty.
    assert (Hin0 : ∀ x, x = d ∨ below d x → x ≠ []).
    { intros x [->|Hx]; [done | by eapply below_nonempty]. }
    apply is_dir_lookup in Hd; [|done].
    assert (Hnone : tree w' !! d = None).
    { apply (remove_files_empties d files n w n' w' out); try done.
      - by right.
      - intros x Hx Hm. apply is_dir_lookup in Hm; [|by apply Hin0].
        destruct (Hdirs x Hx Hm) as (f & Hxf & Hf). exists f.
        split_and!; [|done..]. apply Hfiles; [|done].
        destruct Hx as [->|Hx]; [done | by eapply below_trans]. }
    unfold exists_. apply bool_decide_eq_false. rewrite Hnone.
    intros [?|[? ?]]; done.
  - intros x q Hxq Hq Hnin.
    destruct (remove_files_keeps files n w n' w' out q Hwf Hq Hnin Hrun) as [Hwf' Hlk].
    assert (Hq' : is_file w' q = true) by (unfold is_file in *; by rewrite Hlk).
    split; [|done]. apply is_dir_exists. apply (wf_ancestor w' x q); [done | | done].
    apply is_file_lookup in Hq' as (t & k & Hq'). apply elem_of_dom. eauto.
  - intros required_files q Hq Hin. apply elem_of_sorted in Hin.
    unfold removable in Hin. by apply elem_of_difference in Hin as [_ ?].
Qed.

Lemma pruning_after_removal_witness :
  wf Examples.demo
  ∧ remove_files [Examples.unused_py] 0 Examples.demo
    = Returned 1%nat Examples.demo_pruned []
  ∧ exists_ Examples.demo_pruned (vendor_dir ++ ["utility"]) = false
  ∧ exists_ Examples.demo_pruned (vendor_dir ++ ["pykotor"]) = true
  ∧ is_file Examples.demo_pruned Examples.helper_py = true.
Proof.
  assert (Hwf : wf Examples.demo)
    by (apply (bool_decide_unpack _); vm_compute; exact I).
  assert (Hrun : remove_files [Examples.unused_py] 0 Examples.demo
                 = Returned 1%nat Examples.demo_pruned [])
    by (vm_compute; reflexivity).
  destruct (pruning_after_removal [Examples.unused_py] 0%nat Examples.demo 1%nat
              Examples.demo_pruned [] Hwf Hrun) as (_ & Hgone & Hkept & _).
  split_and!; [exact Hwf | exact Hrun | | |].
  - apply (Hgone (vendor_dir ++ ["utility"])).
    + apply (bool_decide_unpack _); vm_compute; exact I.
    + vm_compute; reflexivity.
    + assert (Hall : set_Forall
               (λ q, below (vendor_dir ++ ["utility"]) q →
                     is_file Examples.demo q = true → q ∈ [Examples.unused_py])
               (dom (tree Examples.demo)))
        by (apply (bool_decide_unpack _); vm_compute; exact I).
      intros q Hb Hq. apply Hall; [|done..].
      apply is_file_lookup in Hq as (t & k & Hq). apply elem_of_dom. eauto.
    + assert (Hall : set_Forall
               (λ x, x = vendor_dir ++ ["utility"] ∨ below (vendor_dir ++ ["utility"]) x →
                     is_dir Examples.demo x = true → below x Examples.unused_py)
               (dom (tree Examples.demo)))
        by (apply (bool_decide_unpack _); vm_compute; exact I).
      intros x Hx Hd. exists Examples.unused_py. split; [|vm_compute; reflexivity].
      apply Hall; [|done..].
      apply exists_dom; [|by apply is_dir_exists].
      destruct Hx as [->|Hx]; [discriminate | by eapply below_nonempty].
    + intros x _. unfold Examples.demo. simpl. apply not_elem_of_empty.
  - apply (Hkept (vendor_dir ++ ["pykotor"]) Examples.helper_py).
    + apply (bool_decide_unpack _); vm_compute; exact I.
    + vm_compute; reflexivity.
    + apply (bool_decide_unpack _); vm_compute; exact I.
  - apply (Hkept (vendor_dir ++ ["pykotor"]) Examples.helper_py).
    + apply (bool_decide_unpack _); vm_compute; exact I.
    + vm_compute; reflexivity.
    + apply (bool_decide_unpack _); vm_compute; exact I.
Defined.

(** * Further properties of the script *)

(** ** The extractor *)

Lemma rfind_first_segment s : Str.rfind "." (Str.first_segment s) = None.
Proof.
  induction s as [|c s IH]; simpl; [done|].
  destruct (Ascii.eqb c ".") eqn:Hc; simpl; [done|].
  by rewrite IH, Hc.
Qed.

Lemma elem_of_tree_imports t name :
  name ∈ tree_imports t ↔ ∃ n, n ∈ walk t ∧ name ∈ node_imports n.
Proof.
  unfold tree_imports. rewrite elem_of_union_list. split.
  - intros (X & (n & -> & Hn)%list_elem_of_fmap & Hx). eauto.
  - intros (n & Hn & Hx). exists (node_imports n). split; [|done].
    apply list_elem_of_fmap. eauto.
Qed.

Lemma node_imports_no_dot n name :
  name ∈ node_imports n → Str.rfind "." name = None.
Proof.
  destruct n as [names|[module|] level|children]; simpl.
  - intros (x & -> & _)%elem_of_list_to_set%list_elem_of_fmap.
    apply rfind_first_segment.
  - destruct (String.eqb module EmptyString); [by intros ?%not_elem_of_empty|].
    intros ->%elem_of_singleton. apply rfind_first_segment.
  - by intros ?%not_elem_of_empty.
  - by intros ?%not_elem_of_empty.
Qed.

(** X1. Every name the extractor returns is a top-level name: it contains no
    dot, whatever the file holds. *)
Theorem extracted_names_have_no_dot w file_path name :
  name ∈ (find_imports_in_file w file_path).1 → Str.rfind "." name = None.
Proof.
  unfold find_imports_in_file.
  destruct (tree w !! file_path) as [[[e|t] n|n]|]; simpl;
    try by intros ?%not_elem_of_empty.
  intros (nd & _ & Hn)%elem_of_tree_imports. by eapply node_imports_no_dot.
Qed.

Lemma extracted_names_have_no_dot_witness :
  "pykotor" ∈ (find_imports_in_file Examples.demo Examples.main_py).1
  ∧ Str.rfind "." "pykotor" = None.
Proof.
  assert (H : "pykotor" ∈ (find_imports_in_file Examples.demo Examples.main_py).1)
    by (apply (bool_decide_unpack _); vm_compute; exact I).
  split; [exact H|].
  exact (extracted_names_have_no_dot Examples.demo Examples.main_py "pykotor" H).
Defined.

Lemma walk_child children c n :
  c ∈ children → n ∈ walk c → n ∈ walk (Other children).
Proof.
  intros Hc Hn. simpl. right. apply list_elem_of_In, in_flat_map.
  exists c. split; by apply list_elem_of_In.
Qed.

(** X2. An import statement is found wherever it stands in the tree: what a
    subtree imports, the tree imports, at any depth of nesting. *)
Theorem nested_imports_are_found children c name :
  c ∈ children → name ∈ tree_imports c → name ∈ tree_imports (Other children).
Proof.
  intros Hc (n & Hn & Hx)%elem_of_tree_imports.
  apply elem_of_tree_imports. exists n. split; [by eapply walk_child | done].
Qed.

Lemma nested_imports_are_found_witness :
  "utility" ∈ tree_imports
    (Other [Other []; Other [Other [ImportFrom (Some "utility.misc") 0]]]).
Proof.
  apply (nested_imports_are_found _ (Other [Other [ImportFrom (Some "utility.misc") 0]])).
  - apply list_elem_of_In. simpl. auto.
  - apply (nested_imports_are_found _ (Other [ImportFrom (Some "utility.misc") 0])).
    + apply list_elem_of_In. simpl. auto.
    + apply (bool_decide_unpack _); vm_compute; exact I.
Defined.

(** ** The closure builder *)

(** X3. The result does not depend on which element [pop] removes: two runs
    on the same tree, with any two ways of choosing, return the same set. *)
Theorem closure_pop_order_irrelevant pop pop' w root_dir start_file :
  (∀ k s, s ≠ ∅ → pop k s ∈ s) → (∀ k s, s ≠ ∅ → pop' k s ∈ s) → wf w →
  ∃ files, find_all_dependencies pop w root_dir start_file = Some files
         ∧ find_all_dependencies pop' w root_dir start_file = Some files.
Proof.
  intros Hpop Hpop' Hwf.
  destruct (closure_returns_reachable pop w root_dir start_file Hpop Hwf)
    as (files & Hf & Hr).
  destruct (closure_returns_reachable pop' w root_dir start_file Hpop' Hwf)
    as (files' & Hf' & Hr').
  exists files. split; [done|]. rewrite Hf'. f_equal.
  apply set_eq. intros f. by rewrite Hr, Hr'.
Qed.

(** Another way of choosing: the last element in the order of [elements]. *)
Lemma pop_last_ok (k : nat) (s : gset path) :
  s ≠ ∅ → default [] (last (elements s)) ∈ s.
Proof.
  intros Hne. destruct (last (elements s)) as [x|] eqn:Hl.
  - simpl. apply elem_of_elements. apply last_Some in Hl as [l' ->].
    apply elem_of_app. right. by left.
  - apply last_None in Hl. apply elements_empty_inv in Hl.
    exfalso. apply Hne. by unfold_leibniz.
Qed.

Lemma closure_pop_order_irrelevant_witness :
  wf Examples.demo ∧
  ∃ files,
    find_all_dependencies pop_first Examples.demo vendor_dir entry_point = Some files
    ∧ find_all_dependencies (λ _ s, default [] (last (elements s)))
        Examples.demo vendor_dir entry_point = Some files.
Proof.
  assert (Hwf : wf Examples.demo)
    by (apply (bool_decide_unpack _); vm_compute; exact I).
  split; [exact Hwf|].
  exact (closure_pop_order_irrelevant pop_first (λ _ s, default [] (last (elements s)))
           Examples.demo vendor_dir entry_point pop_first_ok pop_last_ok Hwf).
Defined.

Lemma reachable_start_source w root_dir start_file f :
  reachable w root_dir start_file f → source_file w start_file.
Proof. induction 1; done. Qed.

(** X4. When the start file does not exist, or its suffix is not [.py], the
    result is the empty set: nothing is read and nothing is followed. *)
Theorem closure_of_non_source_is_empty pop w root_dir start_file :
  (∀ k s, s ≠ ∅ → pop k s ∈ s) →
  exists_ w start_file = false ∨ suffix start_file ≠ ".py" →
  find_all_dependencies pop w root_dir start_file = Some ∅
  ∧ (printed <$> find_all_dependencies_state pop w root_dir start_file) = Some [].
Proof.
  intros Hpop Hns.
  destruct (closure_terminates pop Hpop w root_dir start_file) as (st & Hst & Hinv & Hend).
  assert (Hnot : ¬ source_file w start_file).
  { intros [Hex Hsuf]. destruct Hns; congruence. }
  assert (Hempty : all_files st = ∅).
  { apply set_eq. intros f. split; [|by intros ?%not_elem_of_empty].
    intros Hf. exfalso. apply Hnot.
    apply (inv_all_files st Hinv) in Hf as [Hv Hsrc].
    apply (reachable_start_source w root_dir start_file f).
    apply (inv_sound st Hinv); [|done]. apply elem_of_union. by right. }
  unfold find_all_dependencies. rewrite Hst. simpl. split; [by rewrite Hempty|].
  f_equal. destruct (printed st) as [|m l] eqn:Hp; [done|].
  destruct (inv_printed_only st Hinv m) as (f & Hf & _); [rewrite Hp; by left|].
  rewrite Hempty in Hf. by apply not_elem_of_empty in Hf.
Qed.

Lemma closure_of_non_source_is_empty_witness :
  find_all_dependencies pop_first Examples.demo vendor_dir (vendor_dir ++ ["README.md"])
  = Some ∅
  ∧ (printed <$> find_all_dependencies_state pop_first Examples.demo vendor_dir
                   (vendor_dir ++ ["README.md"])) = Some [].
Proof.
  apply (closure_of_non_source_is_empty pop_first Examples.demo vendor_dir
           (vendor_dir ++ ["README.md"]) pop_first_ok).
  left. vm_compute. reflexivity.
Defined.

(** X5. The loop takes at most one turn per entry of the tree, plus one for
    the start file: the number of paths popped is bounded by the size of the
    tree, whatever the imports. *)
Theorem closure_turns_bounded pop w root_dir start_file :
  (∀ k s, s ≠ ∅ → pop k s ∈ s) →
  ∃ st, find_all_dependencies_state pop w root_dir start_file = Some st
      ∧ (length (popped st) ≤ S (size (dom (tree w))))%nat.
Proof.
  intros Hpop.
  destruct (closure_terminates pop Hpop w root_dir start_file) as (st & Hst & Hinv & Hend).
  exists st. split; [done|].
  pose proof (inv_popped_nodup st Hinv) as Hnd.
  assert (Hsub : list_to_set (popped st) ⊆ dom (tree w) ∪ ({[start_file]} : gset path)).
  { intros x Hx%elem_of_list_to_set. apply (inv_universe st Hinv).
    apply elem_of_union. right. by apply (inv_popped st Hinv). }
  apply subseteq_size in Hsub.
  rewrite size_list_to_set in Hsub by done.
  pose proof (size_union_alt (dom (tree w)) ({[start_file]} : gset path)) as Hu.
  assert (Hs : (size (({[start_file]} : gset path) ∖ dom (tree w)) ≤ 1)%nat).
  { rewrite <- (size_singleton (C:=gset path) start_file).
    apply subseteq_size. set_solver. }
  lia.
Qed.

Lemma closure_turns_bounded_witness :
  ∃ st, find_all_dependencies_state pop_first Examples.demo vendor_dir entry_point = Some st
      ∧ (length (popped st) ≤ S (size (dom (tree Examples.demo))))%nat.
Proof.
  exact (closure_turns_bounded pop_first Examples.demo vendor_dir entry_point pop_first_ok).
Defined.

(** A warning about a file is printed in the turn that pops the file, and
    a path is popped once: no warning is printed twice. *)
Lemma iteration_printed_nodup pop w root_dir start_file k st :
  (∀ k s, s ≠ ∅ → pop k s ∈ s) →
  closure_inv w root_dir start_file st → to_process st ≠ ∅ →
  NoDup (printed st) → NoDup (printed (iteration pop w root_dir k st)).
Proof.
  intros Hpop Hinv Hne Hnd.
  destruct (iteration_inv pop Hpop w root_dir start_file k st Hinv Hne)
    as (_ & Hfresh & _).
  unfold iteration. set (current := pop k (to_process st)) in *.
  destruct (decide (current ∈ visited st)); [done|].
  destruct (exists_ w current && String.eqb (suffix current) ".py"); [|done].
  destruct (find_imports_cases w current) as [Hnil|[e He]].
  - destruct (find_imports_in_file w current) as [imports out]. simpl in *.
    subst out. by rewrite app_nil_r.
  - rewrite He. simpl. apply NoDup_app. split_and!; [done | | apply NoDup_singleton].
    intros m Hm ->%list_elem_of_singleton.
    destruct (inv_printed_only st Hinv _ Hm) as (f & Hf & Hw).
    assert (f = current) as ->.
    { destruct (find_imports_cases w f) as [Hn|[e' He']].
      - rewrite Hn in Hw. by apply elem_of_nil in Hw.
      - rewrite He' in Hw. simpl in Hw. apply list_elem_of_singleton in Hw.
        by injection Hw. }
    by apply (inv_all_files st Hinv) in Hf as [? _].
Qed.

Lemma loop_printed_nodup pop w root_dir start_file :
  (∀ k s, s ≠ ∅ → pop k s ∈ s) →
  ∀ fuel k st st',
    closure_inv w root_dir start_file st → NoDup (printed st) →
    loop pop w root_dir fuel k st = Some st' → NoDup (printed st').
Proof.
  intros Hpop. induction fuel as [|fuel IH]; intros k st st' Hinv Hnd; simpl;
    destruct (decide (to_process st = ∅)) as [He|Hne].
  - by intros [= <-].
  - discriminate.
  - by intros [= <-].
  - apply IH.
    + by apply (iteration_inv pop Hpop w root_dir start_file k st Hinv Hne).
    + by eapply iteration_printed_nodup.
Qed.

(** X6. The closure builder prints warnings only, exactly one for each file
    of the result that could not be read or parsed, and none for any other
    file: the messages printed are these warnings, and none of them is
    printed twice. *)
Theorem closure_warnings_are_for_closure_files pop w root_dir start_file :
  (∀ k s, s ≠ ∅ → pop k s ∈ s) →
  ∃ st, find_all_dependencies_state pop w root_dir start_file = Some st
      ∧ NoDup (printed st)
      ∧ (∀ m, m ∈ printed st ↔
              ∃ f e, m = MsgWarning f e ∧ f ∈ all_files st
                     ∧ find_imports_in_file w f = (∅, [MsgWarning f e]))
      ∧ (∀ f e e', MsgWarning f e ∈ printed st → MsgWarning f e' ∈ printed st →
                   e = e').
Proof.
  intros Hpop.
  destruct (closure_terminates pop Hpop w root_dir start_file) as (st & Hst & Hinv & Hend).
  assert (Hiff : ∀ m, m ∈ printed st ↔
              ∃ f e, m = MsgWarning f e ∧ f ∈ all_files st
                     ∧ find_imports_in_file w f = (∅, [MsgWarning f e])).
  { intros m. split.
    - intros Hm. destruct (inv_printed_only st Hinv m Hm) as (f & Hf & Hw).
      destruct (find_imports_cases w f) as [Hnil|[e He]].
      + rewrite Hnil in Hw. by apply elem_of_nil in Hw.
      + rewrite He in Hw. simpl in Hw. apply list_elem_of_singleton in Hw as ->.
        eauto.
    - intros (f & e & -> & Hf & Hw). apply (inv_printed st Hinv f); [done|].
      rewrite Hw. simpl. by left. }
  exists st. split_and!; [done | | done |].
  - apply (loop_printed_nodup pop w root_dir start_file Hpop
             (S (size (dom (tree w)))) 0%nat (closure_init start_file) st);
      [by eapply inv_init | constructor | exact Hst].
  - intros f e e' (f1 & e1 & [= <- <-] & _ & H1)%Hiff (f2 & e2 & [= <- <-] & _ & H2)%Hiff.
    congruence.
Qed.

Lemma closure_warnings_are_for_closure_files_witness :
  ∃ st, find_all_dependencies_state pop_first Examples.demo vendor_dir entry_point = Some st
      ∧ NoDup (printed st)
      ∧ (∀ m, m ∈ printed st ↔
              ∃ f e, m = MsgWarning f e ∧ f ∈ all_files st
                     ∧ find_imports_in_file Examples.demo f = (∅, [MsgWarning f e]))
      ∧ (∀ f e e', MsgWarning f e ∈ printed st → MsgWarning f e' ∈ printed st →
                   e = e').
Proof.
  exact (closure_warnings_are_for_closure_files pop_first Examples.demo vendor_dir
           entry_point pop_first_ok).
Defined.

(** X7. When the start file is a source file and none of the names it
    imports is in [RootSet], the result is the start file alone: third-party
    imports are never looked up on disk. *)
Theorem closure_of_external_imports_only pop w root_dir start_file :
  (∀ k s, s ≠ ∅ → pop k s ∈ s) →
  source_file w start_file →
  (∀ imp, imp ∈ (find_imports_in_file w start_file).1 → imp ∉ RootSet) →
  find_all_dependencies pop w root_dir start_file = Some {[ start_file ]}.
Proof.
  intros Hpop Hsrc Hext.
  destruct (closure_terminates pop Hpop w root_dir start_file) as (st & Hst & Hinv & Hend).
  unfold find_all_dependencies. rewrite Hst. simpl. f_equal.
  assert (Honly : ∀ f, reachable w root_dir start_file f → f = start_file).
  { induction 1 as [|g imp f _ IH Hi Hr _ _]; [done|].
    subst g. by destruct (Hext imp Hi). }
  apply set_eq. intros f. rewrite elem_of_singleton. split.
  - intros Hf. apply Honly. apply (inv_all_files st Hinv) in Hf as [Hv Hs].
    apply (inv_sound st Hinv); [|done]. apply elem_of_union. by right.
  - intros ->. apply (inv_all_files st Hinv). split; [|done].
    pose proof (inv_start st Hinv) as Hs. rewrite Hend in Hs.
    by apply elem_of_union in Hs as [?%not_elem_of_empty|?].
Qed.

Lemma closure_of_external_imports_only_witness :
  (find_imports_in_file Examples.with_cli Examples.cli_py).1 = {[ "os"; "sys"; "typing" ]}
  ∧ Examples.helper_py ∈ rglob Examples.with_cli (joinpath vendor_dir "pykotor") "*.py"
  ∧ find_all_dependencies pop_first Examples.with_cli vendor_dir Examples.cli_py
    = Some {[ Examples.cli_py ]}.
Proof.
  split_and!; [by apply (bool_decide_unpack _); vm_compute
              | by apply (bool_decide_unpack _); vm_compute |].
  apply (closure_of_external_imports_only pop_first Examples.with_cli
           vendor_dir Examples.cli_py pop_first_ok).
  - split; vm_compute; reflexivity.
  - assert (Hall : set_Forall (λ imp, imp ∉ RootSet)
                     (find_imports_in_file Examples.with_cli Examples.cli_py).1)
      by (apply (bool_decide_unpack _); vm_compute; exact I).
    exact Hall.
Defined.

(** ** Inventory against closure *)

(** X8. The inventory is taken with the pattern [*.py], the closure with
    the suffix test. An entry below the vendored root whose name matches
    the pattern but whose suffix is not [.py] (a file named [.py], which
    has no suffix) is in the inventory and never in the closure: it is
    always removable. *)
Theorem pattern_match_without_suffix_is_removable pop w p :
  (∀ k s, s ≠ ∅ → pop k s ∈ s) →
  is_dir w vendor_dir = true → p ∈ dom (tree w) → below vendor_dir p →
  Str.fnmatch "*.py" (name p) = true → suffix p ≠ ".py" →
  ∃ required_files,
    find_all_dependencies pop w vendor_dir entry_point = Some required_files
    ∧ p ∈ all_py_files w ∧ (p ∉ required_files)
    ∧ p ∈ removable w required_files.
Proof.
  intros Hpop Hv Hp Hb Hm Hsuf.
  destruct (closure_terminates pop Hpop w vendor_dir entry_point) as (st & Hst & Hinv & Hend).
  exists (all_files st). unfold find_all_dependencies. rewrite Hst. simpl.
  assert (Hin : p ∈ all_py_files w) by by apply elem_of_rglob.
  assert (Hnot : p ∉ all_files st).
  { intros [_ [_ ?]]%(inv_all_files st Hinv). done. }
  split_and!; [done..|]. unfold removable. by apply elem_of_difference.
Qed.

Lemma pattern_match_without_suffix_is_removable_witness :
  ∃ required_files,
    find_all_dependencies pop_first
      (with_entry Examples.demo (vendor_dir ++ ["pykotor"; ".py"])
         (File (Examples.module []) 5))
      vendor_dir entry_point = Some required_files
    ∧ vendor_dir ++ ["pykotor"; ".py"]
        ∈ all_py_files (with_entry Examples.demo (vendor_dir ++ ["pykotor"; ".py"])
                          (File (Examples.module []) 5))
    ∧ (vendor_dir ++ ["pykotor"; ".py"] ∉ required_files)
    ∧ vendor_dir ++ ["pykotor"; ".py"]
        ∈ removable (with_entry Examples.demo (vendor_dir ++ ["pykotor"; ".py"])
                       (File (Examples.module []) 5)) required_files.
Proof.
  apply (pattern_match_without_suffix_is_removable pop_first _ _ pop_first_ok).
  - vm_compute; reflexivity.
  - apply (bool_decide_unpack _); vm_compute; exact I.
  - apply (bool_decide_unpack _); vm_compute; exact I.
  - vm_compute; reflexivity.
  - vm_compute. discriminate.
Defined.

(** ** Removals only shrink the tree *)

Lemma shrinks_refl w : shrinks w w.
Proof. split; [done | by right]. Qed.

Lemma shrinks_trans w1 w2 w3 : shrinks w1 w2 → shrinks w2 w3 → shrinks w1 w3.
Proof.
  intros [Hl1 H1] [Hl2 H2]. split; [congruence|].
  intros q. destruct (H2 q) as [?|Hq]; [by left|].
  rewrite Hq. apply H1.
Qed.

Lemma shrinks_exists w w' q : shrinks w w' → exists_ w q = false → exists_ w' q = false.
Proof.
  intros [_ H] Hq. apply bool_decide_eq_false in Hq. apply bool_decide_eq_false.
  intros [->|Hs]; [apply Hq; by left|].
  apply Hq. right. destruct (H q) as [Hn|He]; [rewrite Hn in Hs; by destruct Hs|].
  by rewrite <- He.
Qed.

Lemma shrinks_is_dir w w' q : shrinks w w' → is_dir w' q = true → is_dir w q = true.
Proof.
  intros [_ H]. unfold is_dir. destruct q as [|x q]; [done|].
  destruct (H (x :: q)) as [-> | ->]; done.
Qed.

Lemma shrinks_rglob w w' d pat : shrinks w w' → rglob w' d pat ⊆ rglob w d pat.
Proof.
  intros Hs q (Hd & Hq & Hb & Hm)%elem_of_rglob. apply elem_of_rglob.
  split_and!; [by eapply shrinks_is_dir | | done..].
  apply elem_of_dom in Hq as [e He]. apply elem_of_dom.
  destruct Hs as [_ H]. destruct (H q) as [Hn|Heq]; [congruence|].
  rewrite <- Heq. eauto.
Qed.

Lemma unlink_shrinks w p w' : unlink w p = inr w' → shrinks w w'.
Proof.
  intros (_ & _ & ->)%unlink_spec. split; [done|]. intros q. simpl.
  destruct (decide (q = p)) as [->|Hne].
  - left. apply lookup_delete_eq.
  - right. by apply lookup_delete_ne.
Qed.

Lemma prune_parents_shrinks fuel w p : shrinks w (prune_parents fuel w p).
Proof.
  split; [apply prune_parents_locked|]. intros q.
  destruct (prune_parents_lookup fuel w p q) as [?|[? _]]; auto.
Qed.

(** What [rmtree] leaves: nothing of [d] and below, all of the rest. *)
Lemma rmtree_spec w d w' :
  rmtree w d = inr w' →
  (∃ n, tree w !! d = Some (Dir n)) ∧ locked w' = locked w
  ∧ (∀ q, q = d ∨ below d q → tree w' !! q = None)
  ∧ (∀ q, ¬ (q = d ∨ below d q) → tree w' !! q = tree w !! q).
Proof.
  unfold rmtree. destruct (tree w !! d) as [[c n|n]|] eqn:Hd; try discriminate.
  destruct (decide (_ = ∅)); [|discriminate]. intros [= <-]. simpl.
  split_and!; [eauto | done | |].
  - intros q Hq. apply map_lookup_filter_None. destruct (tree w !! q) eqn:Hl; [|by left].
    right. intros e' Hq'. simpl. intros Hn. apply Hn.
    apply elem_of_filter. split; [done|]. apply elem_of_dom. eauto.
  - intros q Hq. destruct (tree w !! q) as [e'|] eqn:Hl.
    + apply map_lookup_filter_Some. split; [done|]. simpl.
      intros [? _]%elem_of_filter. done.
    + apply map_lookup_filter_None. by left.
Qed.

Lemma rmtree_shrinks w d w' : rmtree w d = inr w' → shrinks w w'.
Proof.
  intros (_ & Hl & Hin & Hout)%rmtree_spec. split; [done|]. intros q.
  destruct (decide (q = d ∨ below d q)); [left; by apply Hin | right; by apply Hout].
Qed.

Lemma rmtree_wf w d w' : wf w → rmtree w d = inr w' → wf w'.
Proof.
  intros Hwf (_ & _ & Hin & Hout)%rmtree_spec q e Hq.
  assert (Hnin : ¬ (q = d ∨ below d q)).
  { intros Hi. rewrite (Hin q Hi) in Hq. discriminate. }
  rewrite (Hout q Hnin) in Hq. destruct (Hwf q e Hq) as [Hq0 Hdir].
  split; [done|]. unfold is_dir in *.
  destruct (parent q) as [|x pq] eqn:Hp; [done|].
  rewrite Hout; [done|]. rewrite <- Hp.
  intros [Heq|Hb]; apply Hnin; right.
  - rewrite <- Heq. by apply below_parent_self.
  - eapply below_trans; [done | by apply below_parent_self].
Qed.

(** ** Loops of [main] *)

Lemma for_each_cons {A} (x : A) l body w u w' out :
  for_each (x :: l) body w = Returned u w' out →
  ∃ w1 o1 o2, body x w = Returned () w1 o1
              ∧ for_each l body w1 = Returned u w' o2 ∧ out = o1 ++ o2.
Proof.
  simpl. intros (a & w1 & o1 & o2 & H1 & H2 & ->)%bind_Returned.
  destruct a. eauto 10.
Qed.

(** A loop that returns has kept what each turn keeps, and has established
    for every element what its turn establishes and later turns keep. *)
Lemma for_each_all {A} (I : world → Prop) (Q : A → world → Prop) l (body : A → M unit) :
  (∀ x w w' out, x ∈ l → I w → body x w = Returned () w' out →
                 I w' ∧ Q x w' ∧ ∀ y, Q y w → Q y w') →
  ∀ w u w' out, I w → for_each l body w = Returned u w' out →
                I w' ∧ ∀ x, x ∈ l → Q x w'.
Proof.
  induction l as [|x l IH]; intros Hbody w u w' out HI Hrun.
  - injection Hrun as _ <- _. split; [done|]. by intros x ?%elem_of_nil.
  - apply for_each_cons in Hrun as (w1 & o1 & o2 & Hx & Hrest & _).
    destruct (Hbody x w w1 o1 ltac:(by left) HI Hx) as (HI1 & HQ1 & Hkeep1).
    assert (Hbody' : ∀ y w0 w0' out0, y ∈ l → I w0 →
               body y w0 = Returned () w0' out0 →
               I w0' ∧ Q y w0' ∧ ∀ z, Q z w0 → Q z w0').
    { intros y w0 w0' out0 Hy. apply Hbody. by right. }
    assert (Hstable : ∀ l' w0 u0 w0' out0 z, l' ⊆ l → I w0 → Q z w0 →
               for_each l' body w0 = Returned u0 w0' out0 → Q z w0').
    { clear -Hbody'. induction l' as [|y l' IHl]; intros w0 u0 w0' out0 z Hsub HI Hz Hrun.
      - by injection Hrun as _ <- _.
      - apply for_each_cons in Hrun as (w1 & o1 & o2 & Hy & Hrest & _).
        destruct (Hbody' y w0 w1 o1) as (HI1 & _ & Hk); [apply Hsub; by left|done..|].
        apply (IHl w1 u0 w0' o2 z); [|done|by apply Hk|done].
        intros a Ha. apply Hsub. by right. }
    destruct (IH Hbody' w1 u w' o2 HI1 Hrest) as [HI' HQ'].
    split; [done|]. intros y Hy.
    apply elem_of_cons in Hy as [Heq|Hy]; [subst y | by apply HQ'].
    by apply (Hstable l w1 u w' o2 x).
Qed.

(** ** The removal loop, when it returns *)

Lemma remove_files_shrinks files :
  ∀ n w n' w' out, remove_files files n w = Returned n' w' out → shrinks w w'.
Proof.
  induction files as [|f rest IH]; intros n w n' w' out Hrun.
  - injection Hrun as _ <- _. apply shrinks_refl.
  - rewrite remove_files_cons in Hrun.
    destruct (relative_to f vendor_dir) as [?|r]; [discriminate|].
    destruct (unlink w f) as [?|w1] eqn:Hun; [discriminate|].
    eapply shrinks_trans; [by eapply unlink_shrinks|].
    eapply shrinks_trans; [apply prune_parents_shrinks|]. by eapply IH.
Qed.

Lemma remove_files_wf files :
  ∀ n w n' w' out, wf w → remove_files files n w = Returned n' w' out → wf w'.
Proof.
  induction files as [|f rest IH]; intros n w n' w' out Hwf Hrun.
  - by injection Hrun as _ <- _.
  - rewrite remove_files_cons in Hrun.
    destruct (relative_to f vendor_dir) as [?|r]; [discriminate|].
    destruct (unlink w f) as [?|w1] eqn:Hun; [discriminate|].
    eapply IH; [|done]. apply prune_parents_wf. by eapply unlink_wf.
Qed.

Lemma relative_to_nonempty p r : relative_to p vendor_dir = inr r → p ≠ [].
Proof.
  unfold relative_to. destruct (decide _) as [Heq|]; [|discriminate].
  intros _ ->. discriminate.
Qed.

(** The paths of a batch the loop got through were regular files, and are
    gone. *)
Lemma remove_files_Returned files n w n' w' out :
  remove_files files n w = Returned n' w' out →
  ∀ f, f ∈ files → is_file w f = true ∧ exists_ w' f = false.
Proof.
  revert n w n' w' out.
  induction files as [|f rest IH]; intros n w n' w' out Hrun; [by intros f ?%elem_of_nil|].
  rewrite remove_files_cons in Hrun.
  destruct (relative_to f vendor_dir) as [?|r] eqn:Hrel; [discriminate|].
  destruct (unlink w f) as [?|w1] eqn:Hun; [discriminate|].
  apply unlink_spec in Hun as (Hff & _ & Hw1).
  set (w2 := prune_parents (S (length f)) w1 (parent f)) in *.
  pose proof (IH (S n) w2 n' w' out Hrun) as Hall.
  assert (Hf1 : tree w1 !! f = None) by (rewrite Hw1; simpl; apply lookup_delete_eq).
  intros g [->|Hg]%elem_of_cons.
  - split; [done|].
    apply (shrinks_exists w2 w'); [by eapply remove_files_shrinks|].
    apply (shrinks_exists w1 w2); [apply prune_parents_shrinks|].
    apply bool_decide_eq_false. intros [->|[? ?]]; [|congruence].
    by apply relative_to_nonempty in Hrel.
  - destruct (Hall g Hg) as [Hg2 Hg']. split; [|done].
    unfold w2 in Hg2. rewrite prune_parents_is_file in Hg2.
    unfold is_file in *. rewrite Hw1 in Hg2. simpl in Hg2.
    destruct (decide (g = f)) as [->|Hne].
    + by rewrite lookup_delete_eq in Hg2.
    + by rewrite lookup_delete_ne in Hg2.
Qed.

(** X9. The removal loop returns only if every path of the batch was a
    regular file and the batch had no path twice; the count it returns has
    grown by the length of the batch, none of the paths exists any more, and
    nothing was printed. A directory in the batch, or a path that is already
    gone, makes the loop raise. *)
Theorem remove_files_returns_only_on_files files n w n' w' out :
  remove_files files n w = Returned n' w' out →
  n' = (n + length files)%nat ∧ NoDup files ∧ out = []
  ∧ ∀ f, f ∈ files → is_file w f = true ∧ exists_ w' f = false.
Proof.
  intros Hrun. split_and!.
  - revert n w Hrun. induction files as [|f rest IH]; intros n w Hrun.
    + injection Hrun as <- _ _. simpl. lia.
    + rewrite remove_files_cons in Hrun.
      destruct (relative_to f vendor_dir); [discriminate|].
      destruct (unlink w f); [discriminate|].
      apply IH in Hrun. simpl. lia.
  - revert n w Hrun. induction files as [|f rest IH]; intros n w Hrun; [constructor|].
    pose proof (remove_files_Returned _ _ _ _ _ _ Hrun f ltac:(by left)) as [Hf _].
    rewrite remove_files_cons in Hrun.
    destruct (relative_to f vendor_dir); [discriminate|].
    destruct (unlink w f) as [?|w1] eqn:Hun; [discriminate|].
    apply unlink_spec in Hun as (_ & _ & Hw1).
    constructor; [|by eapply IH].
    intros Hin.
    destruct (remove_files_Returned _ _ _ _ _ _ Hrun f Hin) as [Hf2 _].
    rewrite prune_parents_is_file in Hf2. unfold is_file in Hf2.
    rewrite Hw1 in Hf2. simpl in Hf2. by rewrite lookup_delete_eq in Hf2.
  - pose proof (remove_files_silent files n w) as Hs. by rewrite Hrun in Hs.
  - by eapply remove_files_Returned.
Qed.

Lemma remove_files_returns_only_on_files_witness :
  1%nat = (0 + length [Examples.unused_py])%nat ∧ NoDup [Examples.unused_py]
  ∧ @nil msg = []
  ∧ ∀ f, f ∈ [Examples.unused_py] →
         is_file Examples.demo f = true ∧ exists_ Examples.demo_pruned f = false.
Proof.
  apply (remove_files_returns_only_on_files [Examples.unused_py] 0%nat Examples.demo
           1%nat Examples.demo_pruned []).
  vm_compute; reflexivity.
Defined.

(** ** The always-removed directories *)

Local Abbreviation unused_dir_turn :=
  (λ dir_name : path,
    let dir_path := vendor_dir ++ dir_name in
    present ← ask (λ w, exists_ w dir_path) ;
    if (present : bool) then
      size ← ask (λ w, sum_sizes w (is_file w) (rglob w dir_path "*")) ;
      print (MsgRemovingDir dir_name size) ;;
      syscall (λ w, rmtree w dir_path)
    else mret ()).

Lemma unused_dir_turn_Returned dir_name w u w' out :
  unused_dir_turn dir_name w = Returned u w' out →
  (exists_ w (vendor_dir ++ dir_name) = false ∧ w' = w)
  ∨ rmtree w (vendor_dir ++ dir_name) = inr w'.
Proof.
  unfold mbind, M_bind, ask, print, syscall, mret, M_ret. cbv beta zeta.
  destruct (exists_ w (vendor_dir ++ dir_name)) eqn:Hex; cbv beta iota.
  - destruct (rmtree w (vendor_dir ++ dir_name)) as [e|w1] eqn:Hrm;
      cbv beta iota; [discriminate|].
    intros [= _ <- _]. by right.
  - intros [= _ <- _]. by left.
Qed.

Lemma unused_dirs_loop l w u w' out :
  wf w → for_each l unused_dir_turn w = Returned u w' out →
  wf w' ∧ shrinks w w'
  ∧ (∀ d q, d ∈ l → q = vendor_dir ++ d ∨ below (vendor_dir ++ d) q →
            tree w' !! q = None)
  ∧ (∀ q, (∀ d, d ∈ l → ¬ (q = vendor_dir ++ d ∨ below (vendor_dir ++ d) q)) →
          tree w' !! q = tree w !! q).
Proof.
  intros Hwf Hrun.
  pose proof (for_each_all
    (λ w1, wf w1 ∧ shrinks w w1
           ∧ ∀ q, (∀ d, d ∈ l → ¬ (q = vendor_dir ++ d ∨ below (vendor_dir ++ d) q)) →
                  tree w1 !! q = tree w !! q)
    (λ d w1, ∀ q, q = vendor_dir ++ d ∨ below (vendor_dir ++ d) q → tree w1 !! q = None)
    l unused_dir_turn) as Hloop.
  destruct (Hloop) with (w := w) (u := u) (w' := w') (out := out)
    as [(Hwf' & Hs & Hframe) Hgone]; [| |done|].
  - clear Hloop Hrun. intros d w1 w2 o Hd (Hwf1 & Hs1 & Hf1) Hturn.
    apply unused_dir_turn_Returned in Hturn as [[Hex ->]|Hrm].
    + split_and!; [done.. | | done].
      intros q Hq. destruct (tree w1 !! q) as [e|] eqn:Hl; [exfalso|done].
      apply bool_decide_eq_false in Hex. apply Hex. right.
      destruct Hq as [->|Hb]; [eauto|].
      assert (Hdir : is_dir w1 (vendor_dir ++ d) = true).
      { apply (wf_ancestor w1 _ q); [done | by apply elem_of_dom | done]. }
      apply is_dir_lookup in Hdir as [n Hn]; [eauto | discriminate].
    + pose proof (rmtree_shrinks _ _ _ Hrm) as Hs2.
      pose proof (rmtree_wf _ _ _ Hwf1 Hrm) as Hwf2.
      apply rmtree_spec in Hrm as (_ & _ & Hin & Hout).
      split_and!; [done | by eapply shrinks_trans | | done |].
      * intros q Hq. rewrite Hout; [by apply Hf1 | by apply Hq].
      * intros y Hy q Hq. destruct Hs2 as [_ H2].
        destruct (H2 q) as [?|Heq]; [done|]. by rewrite Heq, Hy.
  - split_and!; [done | apply shrinks_refl | done].
  - split_and!; [done..| | done]. intros d q Hd. by apply Hgone.
Qed.

(** X10. When the loop over the always-removed directories returns, none of
    them exists any more, nor anything below them, required files included;
    every entry outside them is exactly as it was. *)
Theorem unused_dirs_are_removed_whole w u w' out :
  wf w → remove_unused_dirs w = Returned u w' out →
  wf w'
  ∧ (∀ d q, d ∈ unused_dirs → q = vendor_dir ++ d ∨ below (vendor_dir ++ d) q →
            exists_ w' q = false)
  ∧ (∀ q, (∀ d, d ∈ unused_dirs →
                ¬ (q = vendor_dir ++ d ∨ below (vendor_dir ++ d) q)) →
          tree w' !! q = tree w !! q).
Proof.
  intros Hwf Hrun.
  destruct (unused_dirs_loop unused_dirs w u w' out Hwf Hrun) as (Hwf' & _ & Hgone & Hframe).
  split_and!; [done | | done].
  intros d q Hd Hq. apply bool_decide_eq_false. rewrite (Hgone d q Hd Hq).
  intros [->|[? ?]]; [|done].
  destruct Hq as [Hq|Hq]; [discriminate | by apply below_nonempty in Hq].
Qed.

Lemma unused_dirs_are_removed_whole_witness :
  wf Examples.with_qt
  ∧ wf Examples.with_qt_removed
  ∧ (∀ d q, d ∈ unused_dirs → q = vendor_dir ++ d ∨ below (vendor_dir ++ d) q →
            exists_ Examples.with_qt_removed q = false)
  ∧ (∀ q, (∀ d, d ∈ unused_dirs →
                ¬ (q = vendor_dir ++ d ∨ below (vendor_dir ++ d) q)) →
          tree Examples.with_qt_removed !! q = tree Examples.with_qt !! q).
Proof.
  assert (Hwf : wf Examples.with_qt)
    by (apply (bool_decide_unpack _); vm_compute; exact I).
  split; [exact Hwf|].
  apply (unused_dirs_are_removed_whole Examples.with_qt ()
           Examples.with_qt_removed
           [MsgRemovingDir ["utility"; "gui"; "qt"] 900] Hwf).
  vm_compute; reflexivity.
Defined.

(** ** Runs of [main] that cannot complete *)

Lemma print_Returned m w u w' out : print m w = Returned u w' out → w' = w.
Proof. by intros [= _ <- _]. Qed.

Lemma report_Returned required_files w v w' out :
  report required_files w = Returned v w' out →
  w' = w ∧ v.2 = removable w required_files
  ∧ v.1 = sum_sizes w (exists_ w) (all_py_files w) ∧ v.1 ≠ 0.
Proof.
  intros Hrun.
  destruct (decide (sum_sizes w (exists_ w) (all_py_files w) = 0)) as [H0|H0].
  - destruct (report_zero_total required_files w H0) as [o Ho]. congruence.
  - destruct (report_nonzero_total required_files w H0) as [o Ho].
    rewrite Ho in Hrun. injection Hrun as <- <- _. done.
Qed.

Lemma check_Returned {A} (r : exn + A) w a w' out :
  check r w = Returned a w' out → w' = w.
Proof. unfold check. destruct r; [discriminate|]. by intros [= _ <- _]. Qed.

Lemma ask_Returned {A} (f : world → A) w a w' out :
  ask f w = Returned a w' out → w' = w.
Proof. by intros [= _ <- _]. Qed.

(** The steps of [main] that change the file system, in a run that
    returns. *)
Lemma main_body_Returned required_files warnings w n w' out :
  main_body required_files warnings w = Returned n w' out →
  sum_sizes w (exists_ w) (all_py_files w) ≠ 0
  ∧ ∃ w1 o1 w2 count o2 o3,
      remove_unused_dirs w = Returned () w1 o1
      ∧ remove_files (sorted (removable w required_files)) 0 w1 = Returned count w2 o2
      ∧ remove_artifacts w2 = Returned () w' o3.
Proof.
  unfold main_body. intros Hrun.
  apply bind_Returned in Hrun as (? & wa & ? & ? & ->%print_Returned & Hrun & _).
  apply bind_Returned in Hrun as (? & wb & ? & ? & ->%print_Returned & Hrun & _).
  apply bind_Returned in Hrun as (? & wc & ? & ? & Hp & Hrun & _).
  injection Hp as _ -> _.
  apply bind_Returned in Hrun as ([t r] & wd & ? & ? & Hrep & Hrun & _).
  apply report_Returned in Hrep as (-> & Hr & Ht & Hnz). simpl in Hr, Ht. subst r t.
  apply bind_Returned in Hrun as (? & we & ? & ? & ->%print_Returned & Hrun & _).
  apply bind_Returned in Hrun as ([] & w1 & o1 & ? & Hdirs & Hrun & _).
  apply bind_Returned in Hrun as (? & wf_ & ? & ? & ->%print_Returned & Hrun & _).
  apply bind_Returned in Hrun as (count & w2 & o2 & ? & Hfiles & Hrun & _).
  apply bind_Returned in Hrun as (? & wg & ? & ? & ->%print_Returned & Hrun & _).
  apply bind_Returned in Hrun as (? & wh & ? & ? & ->%print_Returned & Hrun & _).
  apply bind_Returned in Hrun as ([] & w3 & o3 & ? & Hart & Hrun & _).
  apply bind_Returned in Hrun as (? & wi & ? & ? & ->%ask_Returned & Hrun & _).
  apply bind_Returned in Hrun as (? & wj & ? & ? & ->%print_Returned & Hrun & _).
  apply bind_Returned in Hrun as (? & wk & ? & ? & ->%check_Returned & Hrun & _).
  apply bind_Returned in Hrun as (? & wl & ? & ? & ->%print_Returned & Hrun & _).
  injection Hrun as _ <- _.
  split; [done|]. eauto 10.
Qed.

(** X11. [main] cannot complete when a removable file lies in one of the
    always-removed directories: the directory is removed first, with the
    file, and the [unlink] of the file then raises (unless something raised
    before). *)
Theorem removable_file_in_unused_dir_aborts required_files warnings w d f :
  wf w → d ∈ unused_dirs → below (vendor_dir ++ d) f →
  f ∈ removable w required_files →
  ∃ e out, main_body required_files warnings w = Raised e out.
Proof.
  intros Hwf Hd Hb Hf.
  destruct (main_body required_files warnings w) as [n w' out|e out] eqn:Hrun; [|eauto].
  exfalso.
  apply main_body_Returned in Hrun
    as (_ & w1 & o1 & w2 & count & o2 & o3 & Hdirs & Hfiles & _).
  destruct (unused_dirs_loop unused_dirs w () w1 o1 Hwf Hdirs) as (_ & _ & Hgone & _).
  pose proof (remove_files_Returned _ _ _ _ _ _ Hfiles) as Hall.
  destruct (Hall f) as [Hfile _]; [by apply elem_of_sorted|].
  unfold is_file in Hfile. rewrite (Hgone d f Hd) in Hfile; [done | by right].
Qed.

Lemma removable_file_in_unused_dir_aborts_witness :
  ∃ e out,
    main_body {[ Examples.main_py; Examples.init_py; Examples.helper_py ]} []
      Examples.with_qt = Raised e out.
Proof.
  apply (removable_file_in_unused_dir_aborts _ [] Examples.with_qt
           ["utility"; "gui"; "qt"] Examples.widgets_py).
  - apply (bool_decide_unpack _); vm_compute; exact I.
  - apply (bool_decide_unpack _); vm_compute; exact I.
  - apply (bool_decide_unpack _); vm_compute; exact I.
  - apply (bool_decide_unpack _); vm_compute; exact I.
Defined.

Example main_with_qt_raises_file_not_found :
  (λ o, match o with Raised e _ => Some e | _ => None end)
    <$> main pop_first Examples.with_qt = Some (Some FileNotFoundError).
Proof. vm_compute; reflexivity. Qed.

(** ** The artifact sweep *)

Local Abbreviation artifact_turn :=
  (λ item : path,
    file ← ask (λ w, is_file w item) ;
    if (file : bool) then
      syscall (λ w, unlink w item) ;;
      rel ← check (relative_to item vendor_dir) ;
      print (MsgRemoved rel)
    else
      dir ← ask (λ w, is_dir w item) ;
      if (dir : bool) then
        syscall (λ w, rmtree w item) ;;
        rel ← check (relative_to item vendor_dir) ;
        print (MsgRemovedDirectory rel)
      else mret ()).

Lemma artifact_turn_Returned item w u w' out :
  artifact_turn item w = Returned u w' out →
  unlink w item = inr w' ∨ rmtree w item = inr w'
  ∨ (is_file w item = false ∧ is_dir w item = false ∧ w' = w).
Proof.
  unfold mbind, M_bind, ask, print, syscall, check, mret, M_ret. cbv beta zeta.
  destruct (is_file w item) eqn:Hf; cbv beta iota.
  - destruct (unlink w item) as [e|w1] eqn:Hun; cbv beta iota; [discriminate|].
    destruct (relative_to item vendor_dir); cbv beta iota; [discriminate|].
    intros [= _ <- _]. by left.
  - destruct (is_dir w item) eqn:Hd; cbv beta iota.
    + destruct (rmtree w item) as [e|w1] eqn:Hrm; cbv beta iota; [discriminate|].
      destruct (relative_to item vendor_dir); cbv beta iota; [discriminate|].
      intros [= _ <- _]. right. by left.
    + intros [= _ <- _]. right. by right.
Qed.

(** One pass over the items of a pattern. *)
Lemma artifact_items_loop items w u w' out :
  wf w → (∀ item, item ∈ items → item ≠ []) →
  for_each items artifact_turn w = Returned u w' out →
  wf w' ∧ shrinks w w'
  ∧ (∀ item, item ∈ items → tree w' !! item = None)
  ∧ (∀ q, (∀ item, item ∈ items → ¬ (q = item ∨ below item q)) →
          tree w' !! q = tree w !! q).
Proof.
  intros Hwf Hne Hrun.
  pose proof (for_each_all
    (λ w1, wf w1 ∧ shrinks w w1
           ∧ ∀ q, (∀ item, item ∈ items → ¬ (q = item ∨ below item q)) →
                  tree w1 !! q = tree w !! q)
    (λ item w1, tree w1 !! item = None)
    items artifact_turn) as Hloop.
  destruct (Hloop) with (w := w) (u := u) (w' := w') (out := out)
    as [(Hwf' & Hs & Hframe) Hgone]; [| |done|].
  - clear Hloop Hrun. intros item w1 w2 o Hitem (Hwf1 & Hs1 & Hf1) Hturn.
    assert (Hstep : shrinks w1 w2 → (∀ y, tree w1 !! y = None → tree w2 !! y = None)).
    { intros [_ H2] y Hy. destruct (H2 y) as [?|Heq]; [done | by rewrite Heq]. }
    apply artifact_turn_Returned in Hturn as [Hun|[Hrm|(Hfile & Hdir & ->)]].
    + pose proof (unlink_shrinks _ _ _ Hun) as Hs2.
      pose proof (unlink_wf _ _ _ Hwf1 Hun) as Hwf2.
      apply unlink_spec in Hun as (_ & _ & ->).
      split_and!; [done | by eapply shrinks_trans | | | by apply Hstep].
      * intros q Hq. simpl. rewrite lookup_delete_ne; [by apply Hf1|].
        intros <-. apply (Hq item Hitem). by left.
      * simpl. apply lookup_delete_eq.
    + pose proof (rmtree_shrinks _ _ _ Hrm) as Hs2.
      pose proof (rmtree_wf _ _ _ Hwf1 Hrm) as Hwf2.
      apply rmtree_spec in Hrm as (_ & _ & Hin & Hout).
      split_and!; [done | by eapply shrinks_trans | | | by apply Hstep].
      * intros q Hq. rewrite Hout; [by apply Hf1 | by apply Hq].
      * apply Hin. by left.
    + split_and!; [done.. | | done].
      unfold is_file, is_dir in *. specialize (Hne item Hitem).
      destruct item as [|x item]; [done|].
      destruct (tree w1 !! (x :: item)) as [[]|]; done.
  - split_and!; [done | apply shrinks_refl | done].
  - split_and!; [done..| | done]. intros item Hitem. by apply Hgone.
Qed.

Local Abbreviation pattern_turn :=
  (λ pattern : string,
    items ← ask (λ w, sorted (rglob w vendor_dir pattern)) ;
    for_each items artifact_turn).

Lemma artifact_patterns_loop patterns w u w' out :
  wf w → for_each patterns pattern_turn w = Returned u w' out →
  wf w' ∧ shrinks w w'
  ∧ (∀ pattern, pattern ∈ patterns → rglob w' vendor_dir pattern = ∅)
  ∧ (∀ q, (∀ pattern x, pattern ∈ patterns → x = q ∨ below x q →
                        below vendor_dir x → Str.fnmatch pattern (name x) = false) →
          tree w' !! q = tree w !! q).
Proof.
  intros Hwf Hrun.
  pose proof (for_each_all
    (λ w1, wf w1 ∧ shrinks w w1
           ∧ ∀ q, (∀ pattern x, pattern ∈ patterns → x = q ∨ below x q →
                      below vendor_dir x → Str.fnmatch pattern (name x) = false) →
                  tree w1 !! q = tree w !! q)
    (λ pattern w1, rglob w1 vendor_dir pattern = ∅)
    patterns pattern_turn) as Hloop.
  destruct (Hloop) with (w := w) (u := u) (w' := w') (out := out)
    as [(Hwf' & Hs & Hframe) Hgone]; [| |done|done].
  - clear Hloop Hrun. intros pattern w1 w2 o Hpat (Hwf1 & Hs1 & Hf1) Hturn.
    apply bind_Returned in Hturn as (items & w1' & oa & ob & Hask & Hturn & _).
    injection Hask as <- <- _.
    assert (Hne : ∀ item, item ∈ sorted (rglob w1 vendor_dir pattern) → item ≠ []).
    { intros item (_ & _ & Hb & _)%elem_of_sorted%elem_of_rglob.
      by eapply below_nonempty. }
    destruct (artifact_items_loop (sorted (rglob w1 vendor_dir pattern)) w1 () w2 ob
                Hwf1 Hne Hturn) as (Hwf2 & Hs2 & Hgone2 & Hframe2).
    split_and!; [done | by eapply shrinks_trans | | |].
    + intros q Hq. rewrite Hframe2; [by apply Hf1|].
      intros item (_ & _ & Hb & Hm)%elem_of_sorted%elem_of_rglob Hin.
      specialize (Hq pattern item Hpat). rewrite Hm in Hq.
      assert (true = false); [|done]. apply Hq; [|done].
      destruct Hin as [->|?]; auto.
    + apply set_eq. intros q. split; [|by intros ?%not_elem_of_empty].
      intros Hq. exfalso.
      pose proof (shrinks_rglob w1 w2 vendor_dir pattern Hs2 q Hq) as Hq1.
      apply elem_of_sorted in Hq1. apply Hgone2 in Hq1.
      apply elem_of_rglob in Hq as (_ & [e He]%elem_of_dom & _). congruence.
    + intros y Hy. apply set_eq. intros q. split; [|by intros ?%not_elem_of_empty].
      intros Hq%(shrinks_rglob w1 w2 vendor_dir y Hs2). by rewrite Hy in Hq.
  - split_and!; [done | apply shrinks_refl | done].
Qed.

(** X12. When the sweep returns, no entry below the vendored root has a
    name matching one of the artifact patterns, and an entry that neither
    matches a pattern nor lies below a matching entry is exactly as it
    was. *)
Theorem artifact_sweep_removes_every_match w u w' out :
  wf w → remove_artifacts w = Returned u w' out →
  wf w'
  ∧ (∀ pattern, pattern ∈ artifact_patterns → rglob w' vendor_dir pattern = ∅)
  ∧ (∀ q, (∀ pattern x, pattern ∈ artifact_patterns → x = q ∨ below x q →
                        below vendor_dir x → Str.fnmatch pattern (name x) = false) →
          tree w' !! q = tree w !! q).
Proof.
  intros Hwf Hrun.
  destruct (artifact_patterns_loop artifact_patterns w u w' out Hwf Hrun)
    as (Hwf' & _ & Hgone & Hframe).
  done.
Qed.

Lemma artifact_sweep_removes_every_match_witness :
  wf Examples.with_tests
  ∧ wf Examples.with_tests_swept
  ∧ (∀ pattern, pattern ∈ artifact_patterns →
                rglob Examples.with_tests_swept vendor_dir pattern = ∅)
  ∧ (∀ q, (∀ pattern x, pattern ∈ artifact_patterns → x = q ∨ below x q →
                        below vendor_dir x → Str.fnmatch pattern (name x) = false) →
          tree Examples.with_tests_swept !! q = tree Examples.with_tests !! q).
Proof.
  assert (Hwf : wf Examples.with_tests)
    by (apply (bool_decide_unpack _); vm_compute; exact I).
  split; [exact Hwf|].
  apply (artifact_sweep_removes_every_match Examples.with_tests ()
           Examples.with_tests_swept
           [MsgRemovedDirectory ["holopatcher"; "tests"]] Hwf).
  vm_compute; reflexivity.
Defined.

(** ** What a completed run leaves *)

Lemma main_Returned_zero pop w w' out :
  main pop w = Some (Returned 0 w' out) →
  ∃ st, find_all_dependencies_state pop w vendor_dir entry_point = Some st
        ∧ main_body (all_files st) (printed st) w = Returned 0 w' out.
Proof.
  unfold main.
  destruct (negb (exists_ w vendor_dir)); [discriminate|].
  destruct (negb (exists_ w entry_point)); [discriminate|].
  destruct (find_all_dependencies_state pop w vendor_dir entry_point) as [st|];
    [|discriminate].
  simpl. intros [= H]. eauto.
Qed.

(** X13. When [main] returns 0, every file that was removable is gone. *)
Theorem completed_run_removes_every_removable_file pop w w' out :
  wf w → main pop w = Some (Returned 0 w' out) →
  ∃ required_files,
    find_all_dependencies pop w vendor_dir entry_point = Some required_files
    ∧ ∀ f, f ∈ removable w required_files → exists_ w' f = false.
Proof.
  intros Hwf (st & Hst & Hrun)%main_Returned_zero.
  exists (all_files st). unfold find_all_dependencies. rewrite Hst. split; [done|].
  intros f Hf.
  apply main_body_Returned in Hrun
    as (_ & w1 & o1 & w2 & count & o2 & o3 & Hdirs & Hfiles & Hart).
  destruct (unused_dirs_loop unused_dirs w () w1 o1 Hwf Hdirs) as (Hwf1 & _).
  pose proof (remove_files_wf _ _ _ _ _ _ Hwf1 Hfiles) as Hwf2.
  destruct (artifact_patterns_loop artifact_patterns w2 () w' o3 Hwf2 Hart)
    as (_ & Hs & _).
  apply (shrinks_exists w2 w' f Hs).
  pose proof (remove_files_Returned _ _ _ _ _ _ Hfiles) as Hall.
  apply Hall. by apply elem_of_sorted.
Qed.

Lemma demo_run :
  main pop_first Examples.demo
  = Some (Returned 0 Examples.demo_pruned
            [MsgAnalyzing; MsgEntryPoint entry_point;
             MsgWarning Examples.broken_py SyntaxError;
             MsgFound 4; MsgTotal 5; MsgRemovable 1; MsgSizeAnalysis;
             MsgTotalSize 1180; MsgRemovableSize 700 1180; MsgAfterCleanup 480;
             MsgRemovingDirs; MsgRemovingFiles; MsgRemovedCount 1;
             MsgRemovingArtifacts; MsgFinalSize 480; MsgSavings 700 1180]).
Proof. vm_compute; reflexivity. Qed.

Lemma completed_run_removes_every_removable_file_witness :
  wf Examples.demo ∧
  ∃ required_files,
    find_all_dependencies pop_first Examples.demo vendor_dir entry_point
    = Some required_files
    ∧ ∀ f, f ∈ removable Examples.demo required_files →
           exists_ Examples.demo_pruned f = false.
Proof.
  assert (Hwf : wf Examples.demo)
    by (apply (bool_decide_unpack _); vm_compute; exact I).
  split; [exact Hwf|].
  exact (completed_run_removes_every_removable_file pop_first Examples.demo
           Examples.demo_pruned _ Hwf demo_run).
Defined.

(** X14. When [main] returns 0, a required regular file is left exactly as
    it was, provided it is in none of the always-removed directories and
    neither its name nor the name of a directory above it (below the
    vendored root) matches an artifact pattern. These two are the only ways
    in which [main] removes a required file. *)
Theorem completed_run_keeps_required_files pop w w' out :
  wf w → main pop w = Some (Returned 0 w' out) →
  ∃ required_files,
    find_all_dependencies pop w vendor_dir entry_point = Some required_files
    ∧ ∀ q, q ∈ required_files → is_file w q = true →
           (∀ d, d ∈ unused_dirs →
                 ¬ (q = vendor_dir ++ d ∨ below (vendor_dir ++ d) q)) →
           (∀ pattern x, pattern ∈ artifact_patterns → x = q ∨ below x q →
                         below vendor_dir x → Str.fnmatch pattern (name x) = false) →
           tree w' !! q = tree w !! q.
Proof.
  intros Hwf (st & Hst & Hrun)%main_Returned_zero.
  exists (all_files st). unfold find_all_dependencies. rewrite Hst. split; [done|].
  intros q Hq Hfile Hdirs_q Hpat_q.
  apply main_body_Returned in Hrun
    as (_ & w1 & o1 & w2 & count & o2 & o3 & Hdirs & Hfiles & Hart).
  destruct (unused_dirs_loop unused_dirs w () w1 o1 Hwf Hdirs) as (Hwf1 & _ & _ & Hf1).
  assert (Hq1 : tree w1 !! q = tree w !! q) by by apply Hf1.
  assert (Hfile1 : is_file w1 q = true) by (unfold is_file in *; by rewrite Hq1).
  assert (Hnin : q ∉ sorted (removable w (all_files st))).
  { intros Hin%elem_of_sorted. unfold removable in Hin.
    by apply elem_of_difference in Hin as [_ ?]. }
  destruct (remove_files_keeps _ _ _ _ _ _ q Hwf1 Hfile1 Hnin Hfiles) as [Hwf2 Hq2].
  destruct (artifact_patterns_loop artifact_patterns w2 () w' o3 Hwf2 Hart)
    as (_ & _ & _ & Hf3).
  rewrite (Hf3 q Hpat_q). congruence.
Qed.

Lemma completed_run_keeps_required_files_witness :
  wf Examples.demo ∧
  ∃ required_files,
    find_all_dependencies pop_first Examples.demo vendor_dir entry_point
    = Some required_files
    ∧ ∀ q, q ∈ required_files → is_file Examples.demo q = true →
           (∀ d, d ∈ unused_dirs →
                 ¬ (q = vendor_dir ++ d ∨ below (vendor_dir ++ d) q)) →
           (∀ pattern x, pattern ∈ artifact_patterns → x = q ∨ below x q →
                         below vendor_dir x → Str.fnmatch pattern (name x) = false) →
           tree Examples.demo_pruned !! q = tree Examples.demo !! q.
Proof.
  assert (Hwf : wf Examples.demo)
    by (apply (bool_decide_unpack _); vm_compute; exact I).
  split; [exact Hwf|].
  exact (completed_run_keeps_required_files pop_first Examples.demo
           Examples.demo_pruned _ Hwf demo_run).
Defined.

(** ** The walk and the report *)




